(** * Zustand slice patterns: data, list and reorderable-list slices

    A shallow embedding of the slice factories of the pattern catalogue
    (content/libraries/zustand/patterns) and the properties of their
    actions.  Every action of the catalogue has the shape

      set(produce((draft) => { ... }))

    so the embedding has three layers: a few JavaScript built-ins
    ([Js]), the store with its update primitive ([Store]), and one
    module per slice holding the draft recipes and the actions. *)

From Stdlib Require Import ZArith Lia.
From stdpp Require Import base option list gmap strings.

Local Open Scope Z_scope.

(** ** JavaScript values and array built-ins *)

Module Js.

(** [T | null]: [None] is [null].  [T] is the type of the values as
    [===] sees them (primitives and object references); the slices
    only store and hand back the values they are given, so equality
    of embedded values stands for reference equality. *)
Definition nullable (T : Type) : Type := option T.

(** An optional parameter [x?: T]: [None] is [undefined], which is what
    the callee sees when the argument is left out. *)
Definition optional (T : Type) : Type := option T.

(** Errors a recipe can raise: the language's [TypeError], the error
    of a draft that refuses an operation, and an updater's own. *)
Inductive error : Type :=
| TypeError
| DraftError
| UserError.

(** How a block of statements ends: normally with a value, or by
    throwing. *)
Inductive completion (A : Type) : Type :=
| Normal (a : A)
| Throw (e : error).
Arguments Normal {A} a.
Arguments Throw {A} e.

(** [d ?? dflt] on a value of type [T | null]. *)
Definition nullish {T : Type} (d : nullable T) (dflt : nullable T)
  : nullable T :=
  match d with
  | Some v => Some v
  | None => dflt
  end.

Section Arrays.
Context {A : Type} `{EqDecision A}.

(** [Array.prototype.includes] and [Array.prototype.indexOf].
    [includes] compares with SameValueZero and [indexOf] with [===];
    both are equality of the elements here.  For [indexOf] the element
    type is one on which [===] is equality (an id NaN is found by no
    [indexOf]); the identifiers of the mutable list slice, which keep
    NaN apart, have SameValueZero as their equality. *)
Definition includes (l : list A) (x : A) : bool :=
  bool_decide (x ∈ l).

Fixpoint indexOf_from (k : Z) (l : list A) (x : A) : Z :=
  match l with
  | [] => -1
  | y :: l' => if decide (y = x) then k else indexOf_from (k + 1) l' x
  end.

Definition indexOf (l : list A) (x : A) : Z := indexOf_from 0 l x.

(** [push] and [unshift] with one item; the embedding returns the
    array after the call. *)
Definition push (l : list A) (x : A) : list A := l ++ [x].
Definition unshift (l : list A) (x : A) : list A := x :: l.

(** [Array.prototype.splice(start, deleteCount, ...items)] with the
    clamping of ECMAScript: a negative [start] counts from the end,
    [deleteCount] is cut to what is left.  The result is the removed
    elements and the array after the call. *)
Definition splice (l : list A) (start deleteCount : Z) (items : list A)
  : list A * list A :=
  let len := Z.of_nat (length l) in
  let actualStart :=
    if start <? 0 then Z.max (len + start) 0 else Z.min start len in
  let actualDeleteCount :=
    Z.min (Z.max deleteCount 0) (len - actualStart) in
  let i := Z.to_nat actualStart in
  let n := Z.to_nat actualDeleteCount in
  (take n (drop i l), take i l ++ items ++ drop (i + n) l).
End Arrays.

End Js.

Import Js.

(** ** The store *)

Module Store.

Section Store.
Context {S : Type}.

(** A store holds the current snapshot; [notified] records, oldest
    first, the snapshots its subscribers have been called with. *)
Record store : Type := mkStore {
  state : S;
  notified : list S;
}.

Definition create (initial : S) : store :=
  {| state := initial; notified := [] |}.

(** A draft recipe: the function passed to [produce].  It receives
    the draft of the current snapshot and either finishes, giving
    the next snapshot, or throws. *)
Definition recipe : Type := S -> completion S.

(** An action of a slice: runs against the store, may throw. *)
Definition action (A : Type) : Type := store -> completion A * store.

Definition ret {A : Type} (a : A) : action A :=
  fun st => (Normal a, st).

Definition bind {A B : Type} (m : action A) (k : A -> action B)
  : action B :=
  fun st =>
    match m st with
    | (Normal a, st') => k a st'
    | (Throw e, st') => (Throw e, st')
    end.

(** Modelled from the spec: the copy-on-write update primitive
    [set(produce(recipe))] of the state library, which is not part
    of the sources.  It yields the next snapshot and notifies the
    subscribers exactly once per call with it; when the recipe
    throws, the update is abandoned, the previous snapshot stays
    and nobody is notified. *)
Definition set (r : recipe) : action unit :=
  fun st =>
    match r (state st) with
    | Normal s' =>
        (Normal tt, {| state := s'; notified := notified st ++ [s'] |})
    | Throw e => (Throw e, st)
    end.

(** [get()]: the current snapshot. *)
Definition get : action S :=
  fun st => (Normal (state st), st).

(** The store an action leaves behind, and how it ended. *)
Definition exec {A : Type} (m : action A) (st : store) : store :=
  snd (m st).
Definition outcome {A : Type} (m : action A) (st : store)
  : completion A :=
  fst (m st).
End Store.

Arguments store S : clear implicits.
Arguments recipe S : clear implicits.
Arguments action S A : clear implicits.

End Store.

Import Store.

(** Actions compose with the monad notations [x ← m; k] and [m ;; k]. *)
#[global] Instance action_ret {S : Type} : MRet (action S) :=
  fun A a => Store.ret a.
#[global] Instance action_bind {S : Type} : MBind (action S) :=
  fun A B k m => Store.bind m k.

(** ** Data slice (base): [data.store.slice.ts] *)

Module DataSlice.
Section DataSlice.
Context {TData : Type}.

Record DataSliceState : Type := mkDataSlice {
  data : nullable TData;
}.

Definition createDataStoreSlice (initialData : nullable TData)
  : DataSliceState :=
  {| data := initialData |}.

Definition setData (d : nullable TData) : action DataSliceState unit :=
  set (fun draft => Normal {| data := d |}).
End DataSlice.
Arguments DataSliceState TData : clear implicits.
End DataSlice.

(** ** Mutable data slice: [data-mutable.store.slice.ts] *)

Module MutableDataSlice.
Section MutableDataSlice.
Context {TData : Type}.

(** The slice adds no field to the data slice. *)
Definition MutableDataSliceState : Type :=
  DataSlice.DataSliceState TData.

Definition createMutableDataStoreSlice (initialData : nullable TData)
  : MutableDataSliceState :=
  DataSlice.createDataStoreSlice initialData.

(** An updater edits the draft of the held value in place; the
    embedding gives the value it leaves in the draft, or the error
    it throws. *)
Definition updater : Type := TData -> completion TData.

Definition updateData (u : updater)
  : action MutableDataSliceState unit :=
  set (fun draft =>
         match DataSlice.data draft with
         | None => Normal draft (* guard: only update if data exists *)
         | Some d =>
             match u d with
             | Normal d' => Normal {| DataSlice.data := Some d' |}
             | Throw e => Throw e
             end
         end).
End MutableDataSlice.
End MutableDataSlice.

(** ** Restorable data slice: [data-restorable.store.slice.ts] *)

Module RestorableDataSlice.
Section RestorableDataSlice.
Context {TData : Type}.

Record RestorableDataSliceState : Type := mkRestorable {
  data : nullable TData;
  initialData : nullable TData;
}.

Definition set_initialData (v : nullable TData)
    (s : RestorableDataSliceState) : RestorableDataSliceState :=
  {| data := data s; initialData := v |}.

Definition set_data (v : nullable TData)
    (s : RestorableDataSliceState) : RestorableDataSliceState :=
  {| data := v; initialData := initialData s |}.

Definition createRestorableDataStoreSlice
    (initial : nullable TData) : RestorableDataSliceState :=
  {| data := initial; initialData := initial |}.

Definition setData_recipe (d : nullable TData)
  : recipe RestorableDataSliceState :=
  fun draft => Normal (set_data d draft).

Definition setData (d : nullable TData)
  : action RestorableDataSliceState unit :=
  set (setData_recipe d).

(** The recipe of [reset(data?)]. *)
Definition reset_recipe (arg : optional (nullable TData))
  : recipe RestorableDataSliceState :=
  fun draft =>
    let nextInitial :=
      match arg with
      | Some d => d                    (* data !== undefined *)
      | None => initialData draft
      end in
    let draft := set_initialData nextInitial draft in
    let draft := set_data nextInitial draft in
    Normal draft.

Definition reset (arg : optional (nullable TData))
  : action RestorableDataSliceState unit :=
  set (reset_recipe arg).
End RestorableDataSlice.
Arguments RestorableDataSliceState TData : clear implicits.
End RestorableDataSlice.

(** ** Refreshable data slice: [data-refreshable.store.slice.ts] *)

Module RefreshableDataSlice.
Section RefreshableDataSlice.
Context {TData : Type}.

(** The fields spread from the restorable slice, and [freshData]. *)
Record RefreshableDataSliceState : Type := mkRefreshable {
  restorable : RestorableDataSlice.RestorableDataSliceState TData;
  freshData : nullable TData;
}.

Definition data (s : RefreshableDataSliceState) : nullable TData :=
  RestorableDataSlice.data (restorable s).
Definition initialData (s : RefreshableDataSliceState)
  : nullable TData :=
  RestorableDataSlice.initialData (restorable s).

Definition set_freshData (v : nullable TData)
    (s : RefreshableDataSliceState) : RefreshableDataSliceState :=
  {| restorable := restorable s; freshData := v |}.

Definition createRefreshableDataStoreSlice
    (initial : nullable TData) : RefreshableDataSliceState :=
  {| restorable :=
       RestorableDataSlice.createRestorableDataStoreSlice initial;
     freshData := initial |}.

(** A recipe of the restorable slice run on the composed store: it
    touches the spread fields and leaves [freshData] alone. *)
Definition spread
    (r : recipe (RestorableDataSlice.RestorableDataSliceState TData))
  : recipe RefreshableDataSliceState :=
  fun draft =>
    match r (restorable draft) with
    | Normal p => Normal {| restorable := p; freshData := freshData draft |}
    | Throw e => Throw e
    end.

Definition setData (d : nullable TData)
  : action RefreshableDataSliceState unit :=
  set (spread (RestorableDataSlice.setData_recipe d)).

(** [reset] as found on [get()]: the restorable slice's action. *)
Definition reset (arg : optional (nullable TData))
  : action RefreshableDataSliceState unit :=
  set (spread (RestorableDataSlice.reset_recipe arg)).

Definition refresh (d : nullable TData)
  : action RefreshableDataSliceState unit :=
  set (fun draft => Normal (set_freshData d draft)) ;;
  (* Call reset after freshData is updated *)
  _ ← get; reset (Some (nullish d None)).
End RefreshableDataSlice.
Arguments RefreshableDataSliceState TData : clear implicits.
End RefreshableDataSlice.

(** ** Identifiers of list items: [TId extends string | number | symbol] *)

Module JsId.

(** [ToString] on the numbers of a type. *)
Class NumberToString (Number : Type) : Type :=
  number_to_string : Number → string.

(** Whether an item is an object or [null]: the values the
    [__proto__] setter of [Object.prototype] hands on to
    [Object.setPrototypeOf]; on any other value it does nothing. *)
Class PrototypeValue (TData : Type) : Type :=
  is_prototype_value : TData → bool.

Section Id.
Context {Number Symbol : Type}.

(** An identifier.  [Number] holds the numbers other than NaN, with +0
    and -0 as one value (they are the same for [===], for SameValueZero
    and as property keys); NaN is kept apart because [===] and
    SameValueZero disagree on it. *)
Inductive Id : Type :=
| IdString (s : string)
| IdNumber (x : Number)
| IdNaN
| IdSymbol (k : Symbol).

Context `{EqDecision Number, EqDecision Symbol}.

#[global] Instance Id_eq_dec : EqDecision Id.
Proof. solve_decision. Defined.

(** [a === b]: NaN is not equal to anything, itself included.
    SameValueZero, used by [includes], is plain equality of
    identifiers, NaN included. *)
Definition strict_equals (a b : Id) : bool :=
  match a with
  | IdNaN => false
  | _ => bool_decide (a = b)
  end.

(** [ToPropertyKey]: the key under which [record[id]] reads, writes and
    deletes.  Numbers become their strings, so [1] and ["1"] name the
    same property. *)
Definition to_property_key `{NumberToString Number} (id : Id)
  : string + Symbol :=
  match id with
  | IdString s => inl s
  | IdNumber x => inl (number_to_string x)
  | IdNaN => inl "NaN"%string
  | IdSymbol k => inr k
  end.
End Id.
Arguments Id Number Symbol : clear implicits.

Section Records.
Context {Symbol : Type} `{Countable Symbol}.
Context {TData : Type} `{PrototypeValue TData}.

(** [record[key] = element] on the draft of a plain object, the own
    properties of which are the entries of the map.  The key
    [__proto__] is not an entry: the write goes to the accessor of
    [Object.prototype], which sets no own property; for an object or
    [null] it calls [Object.setPrototypeOf] on the draft, which the
    draft refuses by throwing. *)
Definition draft_assign (record : gmap (string + Symbol) TData)
    (key : string + Symbol) (element : TData)
  : completion (gmap (string + Symbol) TData) :=
  if decide (key = inl "__proto__"%string) then
    if is_prototype_value element then Throw DraftError else Normal record
  else Normal (<[key := element]> record).

(** [delete record[key]]: removes the own property, if there is one. *)
Definition draft_delete (record : gmap (string + Symbol) TData)
    (key : string + Symbol) : gmap (string + Symbol) TData :=
  delete key record.
End Records.

End JsId.

Import JsId.

(** ** List slice (base) and mutable list slice:
       [list.store.slice.ts], [list-mutable.store.slice.ts] *)

Module MutableListSlice.
Section MutableListSlice.
Context {Number Symbol : Type}.
Context `{EqDecision Number, Countable Symbol, NumberToString Number}.
Context {TData : Type} `{PrototypeValue TData}.

Abbreviation TId := (Id Number Symbol).

(** The composed store [{...createListStoreSlice(initialList),
    ...createMutableListStoreSlice()}]: the keyed collection of the
    list slice, a plain object which its [setData] may set to [null],
    and the two tracking arrays. *)
Record MutableListSliceState : Type := mkMutableList {
  data : nullable (gmap (string + Symbol) TData);
  added : list TId;
  deleted : list TId;
}.

Definition set_data (v : nullable (gmap (string + Symbol) TData))
    (s : MutableListSliceState) : MutableListSliceState :=
  {| data := v; added := added s; deleted := deleted s |}.
Definition set_added (v : list TId)
    (s : MutableListSliceState) : MutableListSliceState :=
  {| data := data s; added := v; deleted := deleted s |}.
Definition set_deleted (v : list TId)
    (s : MutableListSliceState) : MutableListSliceState :=
  {| data := data s; added := added s; deleted := v |}.

Definition createStore (initialList : nullable (gmap (string + Symbol) TData))
  : MutableListSliceState :=
  {| data := initialList; added := []; deleted := [] |}.

(** [setData] of the list slice. *)
Definition setData (d : nullable (gmap (string + Symbol) TData))
  : action MutableListSliceState unit :=
  set (fun draft => Normal (set_data d draft)).

Definition add_recipe (id : TId) (element : TData)
  : recipe MutableListSliceState :=
  fun draft =>
    (* Add to data: draft.data[id] = element *)
    match data draft with
    | None => Throw TypeError (* cannot set a property of null *)
    | Some record =>
        match draft_assign record (to_property_key id) element with
        | Throw e => Throw e
        | Normal record =>
            let draft := set_data (Some record) draft in
            (* Track in added array (unless already there) *)
            let addedArray := added draft in
            let draft :=
              if negb (includes addedArray id)
              then set_added (push addedArray id) draft
              else draft in
            (* Remove from deleted if it was there (restoration case) *)
            let deletedArray := deleted draft in
            let draft :=
              set_deleted
                (filter (fun deletedId => negb (strict_equals deletedId id))
                   deletedArray)
                draft in
            Normal draft
        end
    end.

Definition add (id : TId) (element : TData)
  : action MutableListSliceState unit :=
  set (add_recipe id element).

Definition remove_recipe (id : TId) : recipe MutableListSliceState :=
  fun draft =>
    (* Remove from data: delete draft.data[id] *)
    match data draft with
    | None => Throw TypeError (* cannot convert null to object *)
    | Some record =>
        let draft :=
          set_data (Some (draft_delete record (to_property_key id))) draft in
        (* Track in deleted array (unless already there) *)
        let deletedArray := deleted draft in
        let draft :=
          if negb (includes deletedArray id)
          then set_deleted (push deletedArray id) draft
          else draft in
        (* Remove from added if it was there (cancel addition) *)
        let addedArray := added draft in
        let draft :=
          set_added
            (filter (fun addedId => negb (strict_equals addedId id))
               addedArray)
            draft in
        Normal draft
    end.

Definition remove (id : TId) : action MutableListSliceState unit :=
  set (remove_recipe id).

(** A call made by a client of the slice, and a sequence of calls
    run in order; a call that throws leaves the store as it was and
    the client goes on. *)
Inductive call : Type :=
| CallAdd (id : TId) (element : TData)
| CallRemove (id : TId).

Definition perform (c : call) : action MutableListSliceState unit :=
  match c with
  | CallAdd id element => add id element
  | CallRemove id => remove id
  end.

Definition run (calls : list call) (st : store MutableListSliceState)
  : store MutableListSliceState :=
  foldl (fun st c => exec (perform c) st) st calls.
End MutableListSlice.
Arguments MutableListSliceState Number Symbol {_ _} TData.
Arguments call Number Symbol TData : clear implicits.
End MutableListSlice.

(** ** Reorderable list slice: [list-reorderable.store.slice.ts] *)

Module ReorderableListSlice.
Section ReorderableListSlice.
Context {TId : Type} `{EqDecision TId}.

Record ReorderableListSliceState : Type := mkReorderable {
  order : list TId;
}.

Definition createReorderableListStoreSlice (initialOrder : list TId)
  : ReorderableListSliceState :=
  {| order := initialOrder |}.

(** Helper: constrain number to valid range. *)
Definition clamp (n min max : Z) : Z := Z.max min (Z.min max n).

(** [orderArray.splice(idx, 1)[0]]: the first removed element.  The
    index always comes from [indexOf], so the removed part is never
    empty and the fallback is not used. *)
Definition first_removed (id : TId) (removed : list TId) : TId :=
  default id (head removed).

Definition setOrder (o : list TId)
  : action ReorderableListSliceState unit :=
  set (fun draft => Normal {| order := o |}).

Definition move_recipe (id : TId) (newIndex : Z)
  : recipe ReorderableListSliceState :=
  fun draft =>
    let orderArray := order draft in
    let currentIndex := indexOf orderArray id in
    if currentIndex =? -1 then Normal draft (* Item not found, no-op *)
    else
      let bounded :=
        clamp newIndex 0 (Z.of_nat (length orderArray) - 1) in
      let '(removed, orderArray) := splice orderArray currentIndex 1 [] in
      let item := first_removed id removed in
      let '(_, orderArray) := splice orderArray bounded 0 [item] in
      Normal {| order := orderArray |}.

Definition moveToTop_recipe (id : TId)
  : recipe ReorderableListSliceState :=
  fun draft =>
    let orderArray := order draft in
    let idx := indexOf orderArray id in
    if idx <=? 0 then Normal draft (* Already at top or not found *)
    else
      let '(removed, orderArray) := splice orderArray idx 1 [] in
      let item := first_removed id removed in
      Normal {| order := unshift orderArray item |}.

Definition moveToBottom_recipe (id : TId)
  : recipe ReorderableListSliceState :=
  fun draft =>
    let orderArray := order draft in
    let idx := indexOf orderArray id in
    if (idx =? -1) || (idx =? Z.of_nat (length orderArray) - 1)
    then Normal draft (* Not found or already at bottom *)
    else
      let '(removed, orderArray) := splice orderArray idx 1 [] in
      let item := first_removed id removed in
      Normal {| order := push orderArray item |}.

Definition moveUp_recipe (id : TId)
  : recipe ReorderableListSliceState :=
  fun draft =>
    let orderArray := order draft in
    let idx := indexOf orderArray id in
    if idx <=? 0 then Normal draft (* Already at top or not found *)
    else
      let '(removed, orderArray) := splice orderArray idx 1 [] in
      let item := first_removed id removed in
      let '(_, orderArray) := splice orderArray (idx - 1) 0 [item] in
      Normal {| order := orderArray |}.

Definition moveDown_recipe (id : TId)
  : recipe ReorderableListSliceState :=
  fun draft =>
    let orderArray := order draft in
    let idx := indexOf orderArray id in
    if (idx =? -1) || (idx =? Z.of_nat (length orderArray) - 1)
    then Normal draft (* Not found or already at bottom *)
    else
      let '(removed, orderArray) := splice orderArray idx 1 [] in
      let item := first_removed id removed in
      let '(_, orderArray) := splice orderArray (idx + 1) 0 [item] in
      Normal {| order := orderArray |}.

Definition move (id : TId) (newIndex : Z)
  : action ReorderableListSliceState unit :=
  set (move_recipe id newIndex).
Definition moveToTop (id : TId)
  : action ReorderableListSliceState unit :=
  set (moveToTop_recipe id).
Definition moveToBottom (id : TId)
  : action ReorderableListSliceState unit :=
  set (moveToBottom_recipe id).
Definition moveUp (id : TId)
  : action ReorderableListSliceState unit :=
  set (moveUp_recipe id).
Definition moveDown (id : TId)
  : action ReorderableListSliceState unit :=
  set (moveDown_recipe id).

(** The five relocating operations, for statements about all of
    them. *)
Inductive operation : Type :=
| Move (newIndex : Z)
| MoveToTop
| MoveToBottom
| MoveUp
| MoveDown.

Definition apply (op : operation) (id : TId)
  : action ReorderableListSliceState unit :=
  match op with
  | Move newIndex => move id newIndex
  | MoveToTop => moveToTop id
  | MoveToBottom => moveToBottom id
  | MoveUp => moveUp id
  | MoveDown => moveDown id
  end.
End ReorderableListSlice.
Arguments ReorderableListSliceState TId : clear implicits.
End ReorderableListSlice.

(** ** User slice of the examples: [2-create-slice-example.tsx] *)

Module UserSlice.
Local Open Scope string_scope.

Record User : Type := mkUser {
  id : string;
  name : string;
  email : string;
}.

Record UserStoreSliceState : Type := mkUserSlice {
  user : nullable User;
}.

Definition createUserStoreSlice (initialUser : nullable User)
  : UserStoreSliceState :=
  {| user := initialUser |}.

Definition setUser_recipe (u : nullable User) : recipe UserStoreSliceState :=
  fun draft => Normal {| user := u |}.

(** An updater edits the draft of the user in place: the embedding
    gives the user it leaves, or the error it throws. *)
Definition user_updater : Type := User -> completion User.

Definition updateUser_recipe (updater : user_updater)
  : recipe UserStoreSliceState :=
  fun draft =>
    match user draft with
    | Some u =>                         (* if (draft.user) *)
        match updater u with
        | Normal u' => Normal {| user := Some u' |}
        | Throw e => Throw e
        end
    | None => Normal draft
    end.

Definition setUser (u : nullable User) : action UserStoreSliceState unit :=
  set (setUser_recipe u).
Definition updateUser (updater : user_updater)
  : action UserStoreSliceState unit :=
  set (updateUser_recipe updater).

(** Truthiness of a string: every string but the empty one. *)
Definition truthy (s : string) : bool := negb (bool_decide (s = "")).

(** The [name] option [createPersistentUserStore] hands to [persist]:
    [initial?.id ? `user-store-${initial.id}` : "user-store"]. *)
Definition persist_name (initial : nullable User) : string :=
  match initial with
  | Some u => if truthy (id u) then "user-store-" ++ id u else "user-store"
  | None => "user-store"
  end.
End UserSlice.

(** ** The combined store of the examples:
       [3-create-complex-slice-example.ts] *)

Module BookmarkSlice.

Record Bookmark : Type := mkBookmark {
  id : string;
  url : string;
}.

(** The fields of the bookmark slice. *)
Record BookmarkStoreSliceState : Type := mkBookmarkSlice {
  bookmarks : gmap string Bookmark;
  orderedBookmarkIds : gmap nat string;
}.
End BookmarkSlice.

Module UserAndBookmarkStore.

(** The store [{...bookmarkSliceCreator(...), ...userSliceCreator(...)}]:
    the fields of both slices side by side. *)
Record UserAndBookmarkState : Type := mkUserAndBookmark {
  bookmarkSlice : BookmarkSlice.BookmarkStoreSliceState;
  userSlice : UserSlice.UserStoreSliceState;
}.

(** A recipe of the user slice run on the combined store: it touches
    its own field and leaves the bookmark slice's alone. *)
Definition on_user (r : recipe UserSlice.UserStoreSliceState)
  : recipe UserAndBookmarkState :=
  fun draft =>
    match r (userSlice draft) with
    | Normal u => Normal {| bookmarkSlice := bookmarkSlice draft; userSlice := u |}
    | Throw e => Throw e
    end.

Definition setUser (u : nullable UserSlice.User)
  : action UserAndBookmarkState unit :=
  set (on_user (UserSlice.setUser_recipe u)).
Definition updateUser (updater : UserSlice.user_updater)
  : action UserAndBookmarkState unit :=
  set (on_user (UserSlice.updateUser_recipe updater)).
End UserAndBookmarkStore.

(** * Properties *)

(** ** Data slices *)

Module DataSliceProperties.
Import RestorableDataSlice.

Section Restorable.
Context {TData : Type}.
Implicit Types (st : store (RestorableDataSliceState TData)).
Implicit Types (v : nullable TData).

Lemma reset_unfold arg st :
  reset arg st =
  let next := match arg with Some d => d | None => initialData (state st) end in
  let s' := {| data := next; initialData := next |} in
  (Normal tt, {| state := s'; notified := notified st ++ [s'] |}).
Proof. reflexivity. Qed.

(** C3. [reset()] with no argument sets [data] to the stored
    [initialData] and leaves [initialData] as it was; [reset(v)]
    sets both [initialData] and [data] to [v]; in both modes the
    call ends normally and leaves [data] and [initialData] equal. *)
Theorem reset_two_modes st :
  (outcome (reset None) st = Normal tt
   ∧ data (state (exec (reset None) st)) = initialData (state st)
   ∧ initialData (state (exec (reset None) st)) = initialData (state st))
  ∧ (∀ v,
       outcome (reset (Some v)) st = Normal tt
       ∧ initialData (state (exec (reset (Some v)) st)) = v
       ∧ data (state (exec (reset (Some v)) st)) = v)
  ∧ (∀ arg,
       data (state (exec (reset arg) st))
       = initialData (state (exec (reset arg) st))).
Proof.
  repeat split; intros; unfold exec, outcome;
    rewrite reset_unfold; reflexivity.
Qed.
End Restorable.

Section Mutable.
Import MutableDataSlice.
Context {TData : Type}.

(** C4. On a mutable data slice whose [data] is [null],
    [updateData(m)] ends normally and leaves the slice state as it
    was, whatever the mutator [m] is, also one that would throw:
    [m] is not called. *)
Theorem updateData_null_noop
    (m : updater) (st : store (@MutableDataSliceState TData)) :
  DataSlice.data (state st) = None →
  outcome (updateData m) st = Normal tt
  ∧ state (exec (updateData m) st) = state st.
Proof.
  destruct st as [[held] log]; simpl; intros ->.
  split; reflexivity.
Qed.
End Mutable.

Lemma updateData_null_noop_witness :
  let st : store (@MutableDataSlice.MutableDataSliceState nat) :=
    create (MutableDataSlice.createMutableDataStoreSlice None) in
  let m : MutableDataSlice.updater := fun _ => Throw UserError in
  DataSlice.data (state st) = None
  ∧ outcome (MutableDataSlice.updateData m) st = Normal tt
  ∧ state (exec (MutableDataSlice.updateData m) st) = state st.
Proof.
  split; [reflexivity|].
  apply (updateData_null_noop (fun _ => Throw UserError)
           (create (MutableDataSlice.createMutableDataStoreSlice None))).
  reflexivity.
Defined.

Section Refreshable.
Import RefreshableDataSlice.
Context {TData : Type}.
Implicit Types (st : store (RefreshableDataSliceState TData)).
Implicit Types (v : nullable TData).

(** The reading of C1: one notification, carrying a snapshot in
    which the three fields are [v]. *)
Definition refresh_is_one_transition v st : Prop :=
  let st' := exec (refresh v) st in
  ∃ s, notified st' = notified st ++ [s]
       ∧ s = state st'
       ∧ freshData s = v
       ∧ RefreshableDataSlice.initialData s = v
       ∧ RefreshableDataSlice.data s = v.

Lemma nullish_null v : nullish v None = v.
Proof. by destruct v. Qed.

(** C1, as the code has it. [refresh(v)] ends normally after two
    updates, each notified on its own: the first snapshot has
    [freshData] set to [v] and [data], [initialData] as before, the
    second is the result of [reset(v)] on it; in the final state
    [freshData], [initialData] and [data] are all [v]. *)
Theorem refresh_two_transitions v st :
  let first := set_freshData v (state st) in
  let st' := exec (refresh v) st in
  outcome (refresh v) st = Normal tt
  ∧ notified st' = notified st ++ [first; state st']
  ∧ RefreshableDataSlice.data first = RefreshableDataSlice.data (state st)
  ∧ RefreshableDataSlice.initialData first
    = RefreshableDataSlice.initialData (state st)
  ∧ freshData (state st') = v
  ∧ RefreshableDataSlice.initialData (state st') = v
  ∧ RefreshableDataSlice.data (state st') = v.
Proof.
  unfold outcome, exec, refresh, reset, set, get, mbind, action_bind,
    Store.bind, spread, RestorableDataSlice.reset_recipe; simpl.
  rewrite nullish_null, <- app_assoc. simpl. repeat split; reflexivity.
Qed.
End Refreshable.

(** C1 fails as stated: on a store holding 1 in all three fields,
    [refresh(2)] notifies the subscribers twice, first with a snapshot
    whose [freshData] is 2 while [data] is still 1. *)
Lemma refresh_not_one_transition :
  let st : store (RefreshableDataSlice.RefreshableDataSliceState nat) :=
    create (RefreshableDataSlice.createRefreshableDataStoreSlice (Some 1%nat)) in
  ¬ refresh_is_one_transition (Some 2%nat) st
  ∧ notified (exec (RefreshableDataSlice.refresh (Some 2%nat)) st)
    = [ {| RefreshableDataSlice.restorable :=
             {| data := Some 1%nat; initialData := Some 1%nat |};
           RefreshableDataSlice.freshData := Some 2%nat |};
        {| RefreshableDataSlice.restorable :=
             {| data := Some 2%nat; initialData := Some 2%nat |};
           RefreshableDataSlice.freshData := Some 2%nat |} ].
Proof.
  split; [|reflexivity].
  intros (s & Hn & _). vm_compute in Hn. discriminate Hn.
Qed.

End DataSliceProperties.

(** ** The store primitive *)

Section StoreFacts.
Context {S : Type}.
Implicit Types (r : recipe S) (st : store S).

Lemma set_normal r st s' :
  r (state st) = Normal s' →
  set r st = (Normal tt, {| state := s'; notified := notified st ++ [s'] |}).
Proof. unfold set. by intros ->. Qed.

Lemma set_throw r st e :
  r (state st) = Throw e → set r st = (Throw e, st).
Proof. unfold set. by intros ->. Qed.

Lemma exec_set_normal r st s' :
  r (state st) = Normal s' →
  outcome (set r) st = Normal tt ∧ state (exec (set r) st) = s'.
Proof. intros Hr. unfold outcome, exec. by rewrite (set_normal r st s' Hr). Qed.

(** A property of snapshots kept by a recipe is kept by [set], also
    when the recipe throws. *)
Lemma exec_set_preserves (P : S → Prop) r st :
  (∀ s s', P s → r s = Normal s' → P s') →
  P (state st) → P (state (exec (set r) st)).
Proof.
  intros Hr HP. unfold exec, set.
  destruct (r (state st)) as [s'|e] eqn:E; simpl; eauto.
Qed.
End StoreFacts.

(** ** Mutable list slice *)

Module MutableListProperties.
Import MutableListSlice.

Section Tracking.
Context {Number Symbol : Type}.
Context `{EqDecision Number, Countable Symbol, NumberToString Number}.
Context {TData : Type} `{PrototypeValue TData}.
Implicit Types (s : MutableListSliceState Number Symbol TData).
Implicit Types (st : store (MutableListSliceState Number Symbol TData)).
Implicit Types (id : Id Number Symbol) (element : TData).
Implicit Types (l : list (Id Number Symbol)).
Implicit Types (record : gmap (string + Symbol) TData).

Lemma includes_spec l id :
  includes l id = true ↔ id ∈ l.
Proof. unfold includes. apply bool_decide_eq_true. Qed.

(** [===] against an identifier other than NaN is equality; against
    NaN it never holds. *)
Lemma strict_equals_spec (x : Id Number Symbol) id :
  id ≠ IdNaN → (strict_equals x id = true ↔ x = id).
Proof.
  intros Hid. unfold strict_equals.
  destruct x; try apply bool_decide_eq_true.
  split; [done|]. intros Heq. by destruct Hid.
Qed.

Lemma strict_equals_NaN (x : Id Number Symbol) :
  strict_equals x IdNaN = false.
Proof. by destruct x. Qed.

(** The array a [filter] with [!== id] leaves. *)
Lemma filter_strict l id :
  id ≠ IdNaN →
  filter (λ x, negb (strict_equals x id)) l = filter (λ x, x ≠ id) l.
Proof.
  intros Hid. apply list_filter_iff. intros x.
  rewrite negb_True, Is_true_true. by rewrite (strict_equals_spec x id Hid).
Qed.

Lemma filter_strict_NaN l :
  filter (λ x, negb (strict_equals x IdNaN)) l = l.
Proof.
  induction l as [|y l IH]; [done|].
  rewrite filter_cons_True; [by rewrite IH|].
  by rewrite strict_equals_NaN.
Qed.

(** The array [if (!array.includes(id)) array.push(id)] leaves. *)
Definition tracked l id : list (Id Number Symbol) :=
  if includes l id then l else l ++ [id].

(** What the two recipes compute on a collection that is there. *)
Lemma add_recipe_record id element s record record' :
  data s = Some record →
  draft_assign record (to_property_key id) element = Normal record' →
  add_recipe id element s =
  Normal {| data := Some record';
            added := tracked (added s) id;
            deleted := filter (λ x, negb (strict_equals x id)) (deleted s) |}.
Proof.
  intros Hd Hassign. unfold add_recipe, tracked. rewrite Hd, Hassign. simpl.
  by destruct (includes (added s) id).
Qed.

Lemma add_recipe_refused id element s record e :
  data s = Some record →
  draft_assign record (to_property_key id) element = Throw e →
  add_recipe id element s = Throw e.
Proof. intros Hd Hassign. unfold add_recipe. by rewrite Hd, Hassign. Qed.

Lemma remove_recipe_record id s record :
  data s = Some record →
  remove_recipe id s =
  Normal {| data := Some (delete (to_property_key id) record);
            added := filter (λ x, negb (strict_equals x id)) (added s);
            deleted := tracked (deleted s) id |}.
Proof.
  intros Hd. unfold remove_recipe, tracked. rewrite Hd. simpl.
  by destruct (includes (deleted s) id).
Qed.

Lemma add_recipe_null id element s :
  data s = None → add_recipe id element s = Throw TypeError.
Proof. unfold add_recipe. by intros ->. Qed.

Lemma remove_recipe_null id s :
  data s = None → remove_recipe id s = Throw TypeError.
Proof. unfold remove_recipe. by intros ->. Qed.

(** Whatever its outcome, [add] leaves a snapshot of one of two
    shapes. *)
Lemma add_recipe_cases id element s :
  (∃ e, add_recipe id element s = Throw e)
  ∨ (∃ record',
       add_recipe id element s =
       Normal {| data := Some record';
                 added := tracked (added s) id;
                 deleted := filter (λ x, negb (strict_equals x id))
                              (deleted s) |}).
Proof.
  destruct (data s) as [record|] eqn:Hd.
  - destruct (draft_assign record (to_property_key id) element)
      as [record'|e] eqn:Hassign.
    + right. exists record'. by apply (add_recipe_record _ _ _ record).
    + left. exists e. by apply (add_recipe_refused _ _ _ record).
  - left. exists TypeError. by apply add_recipe_null.
Qed.

Lemma filter_other_id l id :
  id ∉ l → filter (λ x, x ≠ id) l = l.
Proof.
  induction l as [|y l IH]; [done|].
  rewrite not_elem_of_cons. intros [Hne Hl].
  rewrite filter_cons_True by done. by rewrite IH.
Qed.

Lemma filter_drops_id l id :
  id ∉ filter (λ x, x ≠ id) l.
Proof. rewrite list_elem_of_filter. tauto. Qed.

Lemma filter_snoc_id l id :
  filter (λ x, x ≠ id) (l ++ [id]) = filter (λ x, x ≠ id) l.
Proof.
  rewrite filter_app, filter_cons_False, filter_nil by tauto.
  apply app_nil_r.
Qed.

Lemma filter_tracked l id :
  filter (λ x, x ≠ id) (tracked l id) = filter (λ x, x ≠ id) l.
Proof.
  unfold tracked. destruct (includes l id); [done|]. apply filter_snoc_id.
Qed.

Lemma elem_of_tracked l id y :
  y ∈ tracked l id ↔ y ∈ l ∨ y = id.
Proof.
  unfold tracked. destruct (includes l id) eqn:E.
  - apply includes_spec in E. split; [by left|].
    intros [?| ->]; done.
  - rewrite elem_of_app, list_elem_of_singleton. done.
Qed.

(** The two tracking invariants. *)
Definition disjoint_tracking s : Prop :=
  ∀ id, ¬ (id ∈ added s ∧ id ∈ deleted s).

Definition duplicate_free s : Prop :=
  NoDup (added s) ∧ NoDup (deleted s).

Lemma add_recipe_disjoint id element s s' :
  id ≠ IdNaN →
  disjoint_tracking s → add_recipe id element s = Normal s' →
  disjoint_tracking s'.
Proof.
  intros Hid Hs Hr.
  destruct (add_recipe_cases id element s) as [[e He]|[record' Hn]];
    [congruence|].
  rewrite Hn in Hr. injection Hr as <-. intros x; simpl.
  rewrite (filter_strict _ _ Hid), list_elem_of_filter, elem_of_tracked.
  intros [[Ha|Ha] [Hne Hx]]; [|done]. by apply (Hs x).
Qed.

Lemma remove_recipe_disjoint id s s' :
  id ≠ IdNaN →
  disjoint_tracking s → remove_recipe id s = Normal s' →
  disjoint_tracking s'.
Proof.
  intros Hid Hs Hr. destruct (data s) as [record|] eqn:Hd.
  - rewrite (remove_recipe_record _ _ _ Hd) in Hr.
    injection Hr as <-. intros x; simpl.
    rewrite (filter_strict _ _ Hid), list_elem_of_filter, elem_of_tracked.
    intros [[Hne Hx] [Hdel|Hdel]]; [|done]. by apply (Hs x).
  - by rewrite remove_recipe_null in Hr.
Qed.

Lemma NoDup_tracked l id :
  NoDup l → NoDup (tracked l id).
Proof.
  intros Hl. unfold tracked. destruct (includes l id) eqn:E; [done|].
  apply NoDup_app. split_and!; [done| |apply NoDup_singleton].
  intros x Hx Hx'. apply list_elem_of_singleton in Hx' as ->.
  apply includes_spec in Hx. congruence.
Qed.

Lemma add_recipe_duplicate_free id element s s' :
  duplicate_free s → add_recipe id element s = Normal s' →
  duplicate_free s'.
Proof.
  intros [Ha Hdel] Hr.
  destruct (add_recipe_cases id element s) as [[e He]|[record' Hn]];
    [congruence|].
  rewrite Hn in Hr. injection Hr as <-. split; simpl.
  - by apply NoDup_tracked.
  - by apply NoDup_filter.
Qed.

Lemma remove_recipe_duplicate_free id s s' :
  duplicate_free s → remove_recipe id s = Normal s' →
  duplicate_free s'.
Proof.
  intros [Ha Hdel] Hr. destruct (data s) as [record|] eqn:Hd.
  - rewrite (remove_recipe_record _ _ _ Hd) in Hr.
    injection Hr as <-. split; simpl.
    + by apply NoDup_filter.
    + by apply NoDup_tracked.
  - by rewrite remove_recipe_null in Hr.
Qed.

(** An invariant of both recipes holds after any sequence of
    calls. *)
Lemma run_preserves (P : MutableListSliceState Number Symbol TData → Prop) :
  (∀ id element s s', P s → add_recipe id element s = Normal s' → P s') →
  (∀ id s s', P s → remove_recipe id s = Normal s' → P s') →
  ∀ (calls : list (call Number Symbol TData)) st,
    P (state st) → P (state (run calls st)).
Proof.
  intros Hadd Hrem calls.
  induction calls as [|c calls IH]; intros st HP; [done|].
  change (P (state (run calls (exec (perform c) st)))).
  apply IH. destruct c as [id element|id].
  - apply (exec_set_preserves P (add_recipe id element)); eauto.
  - apply (exec_set_preserves P (remove_recipe id)); eauto.
Qed.

(** The snapshot after [add] and after [remove] on a collection that
    is there. *)
Lemma state_exec_add id element st record :
  data (state st) = Some record →
  state (exec (add id element) st) =
  match draft_assign record (to_property_key id) element with
  | Normal record' =>
      {| data := Some record';
         added := tracked (added (state st)) id;
         deleted := filter (λ x, negb (strict_equals x id))
                      (deleted (state st)) |}
  | Throw _ => state st
  end.
Proof.
  intros Hd. unfold exec, add.
  destruct (draft_assign record (to_property_key id) element)
    as [record'|e] eqn:Hassign.
  - by rewrite (set_normal _ _ _
                  (add_recipe_record id element _ record record' Hd Hassign)).
  - by rewrite (set_throw _ _ _
                  (add_recipe_refused id element _ record e Hd Hassign)).
Qed.

Lemma exec_remove_record id st record :
  data (state st) = Some record →
  outcome (remove id) st = Normal tt
  ∧ state (exec (remove id) st) =
    {| data := Some (delete (to_property_key id) record);
       added := filter (λ x, negb (strict_equals x id)) (added (state st));
       deleted := tracked (deleted (state st)) id |}.
Proof.
  intros Hd. unfold outcome, exec, remove.
  by rewrite (set_normal _ _ _ (remove_recipe_record id _ _ Hd)).
Qed.

(** [delete] after a write under the same key. *)
Lemma delete_draft_assign record record' (key : string + Symbol) element :
  draft_assign record key element = Normal record' →
  delete key record' = delete key record.
Proof.
  unfold draft_assign. destruct (decide (key = inl "__proto__"%string)).
  - destruct (is_prototype_value element); [done|]. by intros [= ->].
  - intros [= <-]. apply delete_insert_eq.
Qed.

(** The reading of C2: both tracking arrays are back to what they
    were, and the collection has no entry for [id]. *)
Definition add_remove_restores id element st : Prop :=
  let st' := run [CallAdd id element; CallRemove id] st in
  added (state st') = added (state st)
  ∧ deleted (state st') = deleted (state st)
  ∧ ∀ record, data (state st') = Some record →
              record !! to_property_key id = None.

(** C2, as the code has it. On a store whose collection is not
    [null], for an id other than NaN, [add(id, item)] followed by
    [remove(id)] leaves the collection as it was minus its entry for
    [id]; [added] is its value before the add with every occurrence of
    [id] removed, so it is restored exactly when [id] was not in it;
    the entries of [deleted] for the other ids are as before the
    add. *)
Theorem add_then_remove id element st record :
  data (state st) = Some record →
  id ≠ IdNaN →
  let st' := run [CallAdd id element; CallRemove id] st in
  data (state st') = Some (delete (to_property_key id) record)
  ∧ delete (to_property_key id) record !! to_property_key id = None
  ∧ added (state st') = filter (λ x, x ≠ id) (added (state st))
  ∧ (added (state st') = added (state st) ↔ id ∉ added (state st))
  ∧ filter (λ x, x ≠ id) (deleted (state st'))
    = filter (λ x, x ≠ id) (deleted (state st)).
Proof.
  intros Hd Hid.
  change (run [CallAdd id element; CallRemove id] st)
    with (exec (remove id) (exec (add id element) st)).
  cbv zeta.
  pose proof (state_exec_add id element st record Hd) as Ha.
  assert (Hgoal : ∀ record1 added1 deleted1,
    delete (to_property_key id) record1 = delete (to_property_key id) record →
    filter (λ x, x ≠ id) added1 = filter (λ x, x ≠ id) (added (state st)) →
    filter (λ x, x ≠ id) deleted1 = filter (λ x, x ≠ id) (deleted (state st)) →
    state (exec (add id element) st)
    = {| data := Some record1; added := added1; deleted := deleted1 |} →
    data (state (exec (remove id) (exec (add id element) st)))
    = Some (delete (to_property_key id) record)
    ∧ delete (to_property_key id) record !! to_property_key id = None
    ∧ added (state (exec (remove id) (exec (add id element) st)))
      = filter (λ x, x ≠ id) (added (state st))
    ∧ (added (state (exec (remove id) (exec (add id element) st)))
       = added (state st) ↔ id ∉ added (state st))
    ∧ filter (λ x, x ≠ id)
        (deleted (state (exec (remove id) (exec (add id element) st))))
      = filter (λ x, x ≠ id) (deleted (state st))).
  { intros record1 added1 deleted1 Hrec Hadded Hdeleted Hst.
    assert (Hd1 : data (state (exec (add id element) st)) = Some record1)
      by (by rewrite Hst).
    destruct (exec_remove_record id _ _ Hd1) as [_ ->]. rewrite Hst. simpl.
    rewrite (filter_strict _ _ Hid), Hadded, Hrec.
    split_and!; [done|apply lookup_delete_eq|done| |].
    - split.
      + intros <-. apply filter_drops_id.
      + apply filter_other_id.
    - by rewrite filter_tracked. }
  destruct (draft_assign record (to_property_key id) element)
    as [record'|e] eqn:Hassign.
  - apply (Hgoal record' (tracked (added (state st)) id)
             (filter (λ x, negb (strict_equals x id)) (deleted (state st))));
      [|apply filter_tracked| |exact Ha].
    + by apply (delete_draft_assign record record' _ element).
    + rewrite (filter_strict _ _ Hid).
      apply filter_other_id, filter_drops_id.
  - apply (Hgoal record (added (state st)) (deleted (state st)));
      [done..|].
    rewrite Ha. clear Ha Hgoal.
    destruct (state st) as [d a dl]. simpl in *. by rewrite Hd.
Qed.

(** C10. After any sequence of [add] and [remove] calls on a store
    created with empty tracking arrays, neither [added] nor
    [deleted] holds an identifier twice. *)
Theorem tracking_arrays_duplicate_free
    (initialList : nullable (gmap (string + Symbol) TData))
    (calls : list (call Number Symbol TData)) :
  let st := run calls (create (createStore initialList)) in
  NoDup (added (state st)) ∧ NoDup (deleted (state st)).
Proof.
  apply (run_preserves duplicate_free).
  - intros id element s s' Hs Hr.
    exact (add_recipe_duplicate_free id element s s' Hs Hr).
  - intros id s s' Hs Hr.
    exact (remove_recipe_duplicate_free id s s' Hs Hr).
  - split; apply NoDup_nil_2.
Qed.

(** The list slice's [setData(null)] leaves a [null] collection. *)
Lemma setData_null st :
  outcome (setData None) st = Normal tt
  ∧ data (state (exec (setData None) st)) = None.
Proof. by split. Qed.

(** C9. On a store whose collection is [null], [add(id, item)] and
    [remove(id)] each throw a [TypeError] and leave the store, its
    snapshot included, as it was. *)
Theorem add_remove_throw_on_null_collection st id element :
  data (state st) = None →
  add id element st = (Throw TypeError, st)
  ∧ remove id st = (Throw TypeError, st).
Proof.
  intros Hd. split.
  - apply set_throw. by apply add_recipe_null.
  - apply set_throw. by apply remove_recipe_null.
Qed.
End Tracking.

(** The identifiers of the examples: strings, the numbers 1 and 2, NaN
    and symbols; the items are numbers, which are no objects. *)
Inductive small_number : Type := One | Two.

#[global] Instance small_number_eq_dec : EqDecision small_number.
Proof. solve_decision. Defined.

#[global] Instance small_number_to_string : NumberToString small_number :=
  fun x => match x with One => "1" | Two => "2" end%string.

#[global] Instance nat_no_prototype_value : PrototypeValue nat :=
  fun _ => false.

Abbreviation ExampleState := (MutableListSliceState small_number positive nat).
Abbreviation ExampleId := (Id small_number positive).

Local Open Scope string_scope.

Definition str (s : string) : ExampleId := IdString s.

Lemma add_then_remove_witness :
  let st : store ExampleState :=
    run [CallAdd (str "a") 1%nat; CallAdd (str "b") 2%nat;
         CallRemove (str "c")]
      (create (createStore (Some {[ inl "c" := 3%nat ]}))) in
  let st' := run [CallAdd (str "a") 9%nat; CallRemove (str "a")] st in
  data (state st) = Some {[ inl "a" := 1%nat; inl "b" := 2%nat ]}
  ∧ (added (state st), deleted (state st))
    = ([str "a"; str "b"], [str "c"])
  ∧ (added (state st'), deleted (state st'))
    = ([str "b"], [str "c"; str "a"])
  ∧ data (state st') = Some {[ inl "b" := 2%nat ]}
  ∧ added (state st') = filter (λ x, x ≠ str "a") (added (state st)).
Proof.
  split; [reflexivity|]. split; [reflexivity|]. split; [reflexivity|].
  split; [reflexivity|].
  apply (add_then_remove (str "a") 9%nat
           (run [CallAdd (str "a") 1%nat; CallAdd (str "b") 2%nat;
                 CallRemove (str "c")]
              (create (createStore (Some {[ inl "c" := 3%nat ]}))))
           {[ inl "a" := 1%nat; inl "b" := 2%nat ]});
    [reflexivity|discriminate].
Defined.

(** C2 fails as stated: once "a" has been added, [add("a", 2)]
    followed by [remove("a")] turns [added = ["a"]], [deleted = []]
    into [added = []], [deleted = ["a"]]. *)
Lemma add_remove_does_not_restore :
  let st : store ExampleState :=
    run [CallAdd (str "a") 1%nat] (create (createStore (Some ∅))) in
  let st' := run [CallAdd (str "a") 2%nat; CallRemove (str "a")] st in
  ¬ add_remove_restores (str "a") 2%nat st
  ∧ (added (state st), deleted (state st)) = ([str "a"], [])
  ∧ (added (state st'), deleted (state st')) = ([], [str "a"]).
Proof.
  split; [|split; reflexivity].
  intros (Hadded & _). vm_compute in Hadded. discriminate Hadded.
Qed.

(** C5 at the identifier NaN. [add(NaN, 7)] finds no NaN in [added]
    and pushes it; [remove(NaN)] finds none in [deleted] and pushes it
    there, and its filter [addedId !== NaN] keeps every element of
    [added], NaN included: the identifier ends in both arrays. *)
Theorem nan_ends_in_both_arrays :
  let st : store ExampleState :=
    run [CallAdd IdNaN 7%nat; CallRemove IdNaN]
      (create (createStore (Some ∅))) in
  added (state st) = [IdNaN]
  ∧ deleted (state st) = [IdNaN]
  ∧ IdNaN ∈ added (state st)
  ∧ IdNaN ∈ deleted (state st).
Proof. split_and!; [reflexivity|reflexivity|compute_done|compute_done]. Qed.

(** The trace of the documentation: add "a", add "b", remove "a". *)
Example add_a_add_b_remove_a :
  let st : store ExampleState :=
    run [CallAdd (str "a") 1%nat; CallAdd (str "b") 2%nat;
         CallRemove (str "a")]
      (create (createStore (Some ∅))) in
  added (state st) = [str "b"] ∧ deleted (state st) = [str "a"]
  ∧ data (state st) = Some {[ inl "b" := 2%nat ]}.
Proof. repeat split; reflexivity. Qed.

(** A number and its string name one property: [remove("1")] deletes
    the entry written by [add(1, 7)] and leaves [1] in [added]. *)
Example number_and_string_share_a_key :
  let st : store ExampleState :=
    run [CallAdd (IdNumber One) 7%nat; CallRemove (str "1")]
      (create (createStore (Some ∅))) in
  data (state st) = Some ∅
  ∧ added (state st) = [IdNumber One]
  ∧ deleted (state st) = [str "1"].
Proof. repeat split; reflexivity. Qed.

(** The key [__proto__] with a number as item: no entry is written, the
    id is tracked all the same. *)
Example proto_key_writes_no_entry :
  let st : store ExampleState :=
    exec (add (str "__proto__") 7%nat) (create (createStore (Some ∅))) in
  data (state st) = Some ∅ ∧ added (state st) = [str "__proto__"].
Proof. split; reflexivity. Qed.

Lemma add_remove_throw_on_null_collection_witness :
  let st : store ExampleState :=
    exec (setData None) (create (createStore (Some ∅))) in
  data (state st) = None
  ∧ add (str "a") 1%nat st = (Throw TypeError, st)
  ∧ remove (str "a") st = (Throw TypeError, st).
Proof.
  split; [reflexivity|].
  apply (add_remove_throw_on_null_collection
           (exec (setData None) (create (createStore (Some ∅))))
           (str "a") 1%nat).
  reflexivity.
Defined.
End MutableListProperties.

(** ** Array built-ins *)

Section ArrayFacts.
Context {A : Type} `{EqDecision A}.
Implicit Types (l : list A) (x : A).

Lemma first_occurrence l x :
  x ∈ l → ∃ i : nat, l !! i = Some x ∧ x ∉ take i l.
Proof.
  induction l as [|y l IH]; intros Hin.
  - by apply elem_of_nil in Hin.
  - destruct (decide (y = x)) as [->|Hne].
    + exists 0%nat. split; [done|]. simpl. apply not_elem_of_nil.
    + apply elem_of_cons in Hin as [->|Hin]; [done|].
      destruct (IH Hin) as (i & Hi & Hfirst).
      exists (S i). split; [done|]. simpl.
      rewrite not_elem_of_cons. split; [congruence|done].
Qed.

Lemma indexOf_from_absent k l x : x ∉ l → indexOf_from k l x = -1.
Proof.
  revert k. induction l as [|y l IH]; intros k Hx; [done|].
  apply not_elem_of_cons in Hx as [Hne Hx]. simpl.
  rewrite decide_False by congruence. by apply IH.
Qed.

Lemma indexOf_from_found k l x (i : nat) :
  l !! i = Some x → x ∉ take i l →
  indexOf_from k l x = k + Z.of_nat i.
Proof.
  revert k i. induction l as [|y l IH]; intros k i Hi Hfirst; [done|].
  destruct i as [|i]; simpl in *.
  - injection Hi as ->. rewrite decide_True by done. lia.
  - apply not_elem_of_cons in Hfirst as [Hne Hfirst].
    rewrite decide_False by congruence.
    rewrite (IH (k + 1) i Hi Hfirst). lia.
Qed.

(** [indexOf] gives -1 for an absent element and the first position of
    a present one. *)
Lemma indexOf_cases l x :
  ((x ∉ l) ∧ indexOf l x = -1)
  ∨ (∃ i : nat, l !! i = Some x ∧ (x ∉ take i l)
                ∧ indexOf l x = Z.of_nat i).
Proof.
  destruct (decide (x ∈ l)) as [Hin|Hnot].
  - right. destruct (first_occurrence l x Hin) as (i & Hi & Hfirst).
    exists i. split_and!; [done..|].
    unfold indexOf. by rewrite (indexOf_from_found 0 l x i).
  - left. split; [done|]. by apply indexOf_from_absent.
Qed.


(** [splice(i, 1)] at a valid index removes that element. *)
Lemma splice_remove_one l (i : nat) x :
  l !! i = Some x →
  splice l (Z.of_nat i) 1 [] = ([x], take i l ++ drop (S i) l).
Proof.
  intros Hi. pose proof (lookup_lt_Some _ _ _ Hi) as Hlt.
  unfold splice.
  replace (Z.of_nat i <? 0) with false by (symmetry; apply Z.ltb_ge; lia).
  replace (Z.min (Z.of_nat i) (Z.of_nat (length l)))
    with (Z.of_nat i) by lia.
  replace (Z.to_nat (Z.min (Z.max 1 0) (Z.of_nat (length l) - Z.of_nat i)))
    with 1%nat by lia.
  rewrite Nat2Z.id.
  rewrite (drop_S _ _ _ Hi). simpl.
  by rewrite Nat.add_1_r, take_0.
Qed.

(** [splice(b, 0, x)] with [b >= 0] inserts [x] before position [b],
    or at the end when [b] is past it. *)
Lemma splice_insert_one l (b : Z) x :
  0 ≤ b →
  splice l b 0 [x] =
  ([], take (Z.to_nat b) l ++ x :: drop (Z.to_nat b) l).
Proof.
  intros Hb. unfold splice.
  replace (b <? 0) with false by (symmetry; apply Z.ltb_ge; lia).
  replace (Z.to_nat (Z.min (Z.max 0 0)
                       (Z.of_nat (length l) - Z.min b (Z.of_nat (length l)))))
    with 0%nat by lia.
  rewrite Nat.add_0_r. simpl. f_equal.
  destruct (Z.le_gt_cases b (Z.of_nat (length l))) as [Hle|Hgt].
  - by replace (Z.min b (Z.of_nat (length l))) with b by lia.
  - replace (Z.min b (Z.of_nat (length l)))
      with (Z.of_nat (length l)) by lia.
    rewrite Nat2Z.id.
    rewrite !take_ge, !drop_ge by lia. done.
Qed.

(** One element taken out at [i] and put back before position [b]. *)
Definition relocated l (i b : nat) x : list A :=
  take b (take i l ++ drop (S i) l) ++ x :: drop b (take i l ++ drop (S i) l).

Lemma length_removed l (i : nat) x :
  l !! i = Some x →
  length (take i l ++ drop (S i) l) = (length l - 1)%nat.
Proof.
  intros Hi. pose proof (lookup_lt_Some _ _ _ Hi).
  rewrite length_app, length_take, length_drop. lia.
Qed.



Lemma filter_relocated l i b x :
  l !! i = Some x →
  filter (λ y, y ≠ x) (relocated l i b x) = filter (λ y, y ≠ x) l.
Proof.
  intros Hi. unfold relocated.
  rewrite filter_app, filter_cons_False by tauto.
  rewrite <- filter_app, take_drop.
  rewrite <- (take_drop_middle l i x Hi) at 3.
  by rewrite !filter_app, filter_cons_False by tauto.
Qed.

Lemma relocated_Permutation l i b x :
  l !! i = Some x → relocated l i b x ≡ₚ l.
Proof.
  intros Hi. unfold relocated.
  rewrite <- Permutation_middle, take_drop.
  rewrite <- (take_drop_middle l i x Hi) at 3.
  by rewrite <- Permutation_middle.
Qed.
End ArrayFacts.


(** ** Reorderable list slice *)

Module ReorderableListProperties.
Import ReorderableListSlice.

Section Reorder.
Context {TId : Type} `{EqDecision TId}.
Implicit Types (l : list TId) (id : TId).
Implicit Types (s : ReorderableListSliceState TId).
Implicit Types (st : store (ReorderableListSliceState TId)).

Lemma clamp_range n lo hi : lo ≤ hi → lo ≤ clamp n lo hi ≤ hi.
Proof. unfold clamp. lia. Qed.




(** The recipe behind each operation. *)
Definition recipe_of (op : operation) id
  : recipe (ReorderableListSliceState TId) :=
  match op with
  | Move newIndex => move_recipe id newIndex
  | MoveToTop => moveToTop_recipe id
  | MoveToBottom => moveToBottom_recipe id
  | MoveUp => moveUp_recipe id
  | MoveDown => moveDown_recipe id
  end.

Lemma apply_recipe_of op id : apply op id = set (recipe_of op id).
Proof. by destruct op. Qed.

Lemma move_recipe_absent id newIndex s :
  id ∉ order s → move_recipe id newIndex s = Normal s.
Proof.
  intros Hnot. unfold move_recipe, indexOf.
  by rewrite indexOf_from_absent.
Qed.

Lemma move_recipe_present id newIndex s (i : nat) :
  order s !! i = Some id → id ∉ take i (order s) →
  move_recipe id newIndex s =
  Normal {| order :=
              relocated (order s) i
                (Z.to_nat (clamp newIndex 0 (Z.of_nat (length (order s)) - 1)))
                id |}.
Proof.
  intros Hi Hfirst. pose proof (lookup_lt_Some _ _ _ Hi) as Hlt.
  unfold move_recipe, indexOf.
  rewrite (indexOf_from_found 0 _ _ i Hi Hfirst), Z.add_0_l.
  replace (Z.of_nat i =? -1) with false by (symmetry; apply Z.eqb_neq; lia).
  rewrite (splice_remove_one _ _ _ Hi). simpl first_removed.
  rewrite splice_insert_one; [done|].
  apply clamp_range. lia.
Qed.

Lemma moveToTop_recipe_cases id s :
  (indexOf (order s) id ≤ 0 ∧ moveToTop_recipe id s = Normal s)
  ∨ (∃ i : nat, order s !! i = Some id
       ∧ moveToTop_recipe id s
         = Normal {| order := id :: (take i (order s) ++ drop (S i) (order s)) |}).
Proof.
  unfold moveToTop_recipe.
  destruct (indexOf_cases (order s) id) as [[_ ->]|(i & Hi & _ & ->)].
  - left. by split.
  - destruct i as [|i].
    + left. by split.
    + right. exists (S i). split; [done|].
      replace (Z.of_nat (S i) <=? 0) with false
        by (symmetry; apply Z.leb_gt; lia).
      by rewrite (splice_remove_one _ _ _ Hi).
Qed.

Lemma moveToBottom_recipe_cases id s :
  moveToBottom_recipe id s = Normal s
  ∨ (∃ i : nat, order s !! i = Some id
       ∧ moveToBottom_recipe id s
         = Normal {| order := (take i (order s) ++ drop (S i) (order s)) ++ [id] |}).
Proof.
  unfold moveToBottom_recipe.
  destruct (indexOf_cases (order s) id) as [[_ ->]|(i & Hi & _ & ->)].
  - by left.
  - destruct (Z.of_nat i =? Z.of_nat (length (order s)) - 1) eqn:Elast.
    + left. by rewrite orb_true_r.
    + right. exists i. split; [done|].
      replace (Z.of_nat i =? -1) with false
        by (symmetry; apply Z.eqb_neq; lia).
      by rewrite (splice_remove_one _ _ _ Hi).
Qed.

Lemma moveUp_recipe_cases id s :
  moveUp_recipe id s = Normal s
  ∨ (∃ i : nat, order s !! i = Some id
       ∧ moveUp_recipe id s
         = Normal {| order := relocated (order s) i (i - 1) id |}).
Proof.
  unfold moveUp_recipe.
  destruct (indexOf_cases (order s) id) as [[_ ->]|(i & Hi & _ & ->)].
  - by left.
  - destruct i as [|i]; [by left|].
    right. exists (S i). split; [done|].
    replace (Z.of_nat (S i) <=? 0) with false
      by (symmetry; apply Z.leb_gt; lia).
    rewrite (splice_remove_one _ _ _ Hi). simpl first_removed.
    rewrite splice_insert_one by lia.
    by replace (Z.to_nat (Z.of_nat (S i) - 1)) with (S i - 1)%nat by lia.
Qed.

Lemma moveDown_recipe_cases id s :
  moveDown_recipe id s = Normal s
  ∨ (∃ i : nat, order s !! i = Some id
       ∧ moveDown_recipe id s
         = Normal {| order := relocated (order s) i (i + 1) id |}).
Proof.
  unfold moveDown_recipe.
  destruct (indexOf_cases (order s) id) as [[_ ->]|(i & Hi & _ & ->)].
  - by left.
  - destruct (Z.of_nat i =? Z.of_nat (length (order s)) - 1) eqn:Elast.
    + left. by rewrite orb_true_r.
    + right. exists i. split; [done|].
      replace (Z.of_nat i =? -1) with false
        by (symmetry; apply Z.eqb_neq; lia).
      rewrite (splice_remove_one _ _ _ Hi). simpl first_removed.
      rewrite splice_insert_one by lia.
      by replace (Z.to_nat (Z.of_nat i + 1)) with (i + 1)%nat by lia.
Qed.

(** Every operation either leaves the snapshot alone or relocates one
    occurrence of [id]. *)
Lemma recipe_relocates op id s :
  recipe_of op id s = Normal s
  ∨ (∃ i b : nat, order s !! i = Some id
       ∧ recipe_of op id s = Normal {| order := relocated (order s) i b id |}).
Proof.
  destruct op as [newIndex| | | |]; simpl.
  - destruct (indexOf_cases (order s) id) as [[Hnot _]|(i & Hi & Hfirst & _)].
    + left. by apply move_recipe_absent.
    + right. eexists i, _. split; [done|].
      by apply move_recipe_present.
  - destruct (moveToTop_recipe_cases id s) as [[_ ?]|(i & Hi & ->)];
      [by left|].
    right. by exists i, 0%nat.
  - destruct (moveToBottom_recipe_cases id s) as [?|(i & Hi & ->)];
      [by left|].
    right. exists i, (length (take i (order s) ++ drop (S i) (order s))).
    split; [done|]. unfold relocated.
    set (rest := take i (order s) ++ drop (S i) (order s)).
    by rewrite (take_ge rest), (drop_ge rest) by lia.
  - destruct (moveUp_recipe_cases id s) as [?|(i & Hi & ->)]; [by left|].
    right. by exists i, (i - 1)%nat.
  - destruct (moveDown_recipe_cases id s) as [?|(i & Hi & ->)]; [by left|].
    right. by exists i, (i + 1)%nat.
Qed.


(** C7. Each of [move], [moveToTop], [moveToBottom], [moveUp] and
    [moveDown] ends normally and leaves the elements other than [id] in
    the order they had; the new order is a permutation of the old
    one. *)
Theorem operations_keep_relative_order (op : operation) id st :
  let st' := exec (apply op id) st in
  outcome (apply op id) st = Normal tt
  ∧ filter (λ x, x ≠ id) (order (state st'))
    = filter (λ x, x ≠ id) (order (state st))
  ∧ order (state st') ≡ₚ order (state st).
Proof.
  cbv zeta. rewrite apply_recipe_of.
  destruct (recipe_relocates op id (state st)) as [Hr|(i & b & Hi & Hr)];
    destruct (exec_set_normal _ st _ Hr) as [Hout ->].
  - by split_and!.
  - split_and!; [done| |]; simpl.
    + by apply filter_relocated.
    + by apply relocated_Permutation.
Qed.

End Reorder.

Open Scope string_scope.


(** The traces of the documentation, run on the embedding. *)
Example move_a_to_2 :
  order (state (exec (move "a" 2)
                  (create (createReorderableListStoreSlice ["a"; "b"; "c"]))))
  = ["b"; "c"; "a"].
Proof. reflexivity. Qed.

Example move_z_then_moveUp_x :
  let st := create (createReorderableListStoreSlice ["x"; "y"; "z"]) in
  let st1 := exec (move "z" 0) st in
  let st2 := exec (moveUp "x") st1 in
  order (state st1) = ["z"; "x"; "y"] ∧ order (state st2) = ["x"; "z"; "y"].
Proof. split; reflexivity. Qed.

Example move_out_of_range :
  let st := create (createReorderableListStoreSlice ["x"; "y"; "z"]) in
  order (state (exec (move "x" 10) st)) = ["y"; "z"; "x"]
  ∧ order (state (exec (move "z" (-4)) st)) = ["z"; "x"; "y"]
  ∧ order (state (exec (move "w" 1) st)) = ["x"; "y"; "z"].
Proof. repeat split; reflexivity. Qed.
End ReorderableListProperties.


(** * Further properties of the slices *)

(** ** Reorderable list slice: the operations as moves *)

Module ReorderableListMoves.
Import ReorderableListSlice ReorderableListProperties.
Local Open Scope list_scope.
Local Open Scope Z_scope.

Section Moves.
Context {TId : Type} `{EqDecision TId}.
Implicit Types (l : list TId) (id : TId).
Implicit Types (s : ReorderableListSliceState TId).
Implicit Types (st : store (ReorderableListSliceState TId)).

(** The index at which an operation puts back the element it took out
    at index [i] of an order of length [len]. *)
Definition target (op : operation) (i len : nat) : nat :=
  match op with
  | Move newIndex => Z.to_nat (clamp newIndex 0 (Z.of_nat len - 1))
  | MoveToTop => 0
  | MoveToBottom => len - 1
  | MoveUp => i - 1
  | MoveDown => (i + 1) `min` (len - 1)
  end.

Lemma removed_split (A B : list TId) x :
  take (length A) (A ++ x :: B) ++ drop (S (length A)) (A ++ x :: B) = A ++ B.
Proof.
  rewrite take_app_length. f_equal.
  rewrite (cons_middle x A B), app_assoc.
  apply drop_app_length'. rewrite length_app. simpl. lia.
Qed.

Lemma relocated_split (A B : list TId) b x :
  relocated (A ++ x :: B) (length A) b x
  = take b (A ++ B) ++ x :: drop b (A ++ B).
Proof. unfold relocated. by rewrite removed_split. Qed.

Lemma first_split l x :
  x ∈ l → ∃ A B, l = A ++ x :: B ∧ x ∉ A.
Proof.
  intros Hin. destruct (first_occurrence l x Hin) as (i & Hi & Hfirst).
  exists (take i l), (drop (S i) l). split; [|done].
  by rewrite take_drop_middle.
Qed.

Lemma relocated_same l (i : nat) x :
  l !! i = Some x → relocated l i i x = l.
Proof.
  intros Hi. pose proof (lookup_lt_Some _ _ _ Hi) as Hlt.
  assert (Hlen : i = length (take i l)) by (rewrite length_take; lia).
  unfold relocated.
  rewrite (take_app_length' (take i l) _ i Hlen).
  rewrite (drop_app_length' (take i l) _ i Hlen).
  by apply take_drop_middle.
Qed.

Lemma indexOf_split (A B : list TId) x :
  x ∉ A → indexOf (A ++ x :: B) x = Z.of_nat (length A).
Proof.
  intros Hnot. unfold indexOf.
  rewrite (indexOf_from_found 0 _ x (length A)); [lia| |].
  - by rewrite list_lookup_middle.
  - by rewrite take_app_length.
Qed.

Lemma recipe_of_absent op id s :
  id ∉ order s → recipe_of op id s = Normal s.
Proof.
  intros Hnot.
  destruct op; simpl;
    unfold move_recipe, moveToTop_recipe, moveToBottom_recipe,
      moveUp_recipe, moveDown_recipe, indexOf;
    by rewrite indexOf_from_absent.
Qed.

(** Every operation on a present [id] takes its first occurrence out
    and puts it back at the operation's target. *)
Lemma recipe_of_present op id s (i : nat) :
  order s !! i = Some id → id ∉ take i (order s) →
  recipe_of op id s =
  Normal {| order := relocated (order s) i
                       (target op i (length (order s))) id |}.
Proof.
  intros Hi Hfirst. pose proof (lookup_lt_Some _ _ _ Hi) as Hlt.
  assert (Hidx : indexOf (order s) id = Z.of_nat i).
  { unfold indexOf. rewrite (indexOf_from_found 0 _ _ i Hi Hfirst). lia. }
  assert (Hsame : Normal s
                  = Normal {| order := relocated (order s) i i id |}).
  { rewrite (relocated_same _ _ _ Hi). by destruct s. }
  destruct op as [newIndex| | | |]; simpl.
  - by apply move_recipe_present.
  - unfold moveToTop_recipe. rewrite Hidx.
    destruct i as [|i]; [done|].
    replace (Z.of_nat (S i) <=? 0) with false
      by (symmetry; apply Z.leb_gt; lia).
    by rewrite (splice_remove_one _ _ _ Hi).
  - unfold moveToBottom_recipe. rewrite Hidx.
    replace (Z.of_nat i =? -1) with false
      by (symmetry; apply Z.eqb_neq; lia).
    destruct (Z.of_nat i =? Z.of_nat (length (order s)) - 1) eqn:Elast;
      cbn [orb].
    + apply Z.eqb_eq in Elast.
      by replace (length (order s) - 1)%nat with i by lia.
    + apply Z.eqb_neq in Elast.
      rewrite (splice_remove_one _ _ _ Hi). simpl first_removed.
      unfold push, relocated.
      set (rest := take i (order s) ++ drop (S i) (order s)).
      assert (length rest = (length (order s) - 1)%nat) as <-
        by (by apply (length_removed _ _ id)).
      by rewrite (take_ge rest), (drop_ge rest) by lia.
  - unfold moveUp_recipe. rewrite Hidx.
    destruct i as [|i]; [done|].
    replace (Z.of_nat (S i) <=? 0) with false
      by (symmetry; apply Z.leb_gt; lia).
    rewrite (splice_remove_one _ _ _ Hi). simpl first_removed.
    rewrite splice_insert_one by lia.
    by replace (Z.to_nat (Z.of_nat (S i) - 1)) with (S i - 1)%nat by lia.
  - unfold moveDown_recipe. rewrite Hidx.
    replace (Z.of_nat i =? -1) with false
      by (symmetry; apply Z.eqb_neq; lia).
    destruct (Z.of_nat i =? Z.of_nat (length (order s)) - 1) eqn:Elast;
      cbn [orb].
    + apply Z.eqb_eq in Elast.
      by replace ((i + 1) `min` (length (order s) - 1))%nat with i by lia.
    + apply Z.eqb_neq in Elast.
      rewrite (splice_remove_one _ _ _ Hi). simpl first_removed.
      rewrite splice_insert_one by lia.
      by replace (Z.to_nat (Z.of_nat i + 1))
        with ((i + 1) `min` (length (order s) - 1))%nat by lia.
Qed.

(** The snapshot an operation leaves. *)
Lemma state_after op id st :
((id ∉ order (state st)) ∧ state (exec (apply op id) st) = state st)
  ∨ (∃ i : nat,
       order (state st) !! i = Some id
       ∧ (id ∉ take i (order (state st)))
       ∧ indexOf (order (state st)) id = Z.of_nat i
       ∧ state (exec (apply op id) st)
         = {| order := relocated (order (state st)) i
                         (target op i (length (order (state st)))) id |}).
Proof.
  rewrite apply_recipe_of.
  destruct (indexOf_cases (order (state st)) id)
    as [[Hnot _]|(i & Hi & Hfirst & Hidx)].
  - left. split; [done|].
    by destruct (exec_set_normal _ st _ (recipe_of_absent op id _ Hnot)).
  - right. exists i. split_and!; [done..|].
    by destruct (exec_set_normal _ st _
                   (recipe_of_present op id _ i Hi Hfirst)).
Qed.

Lemma state_eta s : {| order := order s |} = s.
Proof. by destruct s. Qed.

(** X1. The named moves are moves to a computed index: [moveToTop(id)]
    leaves the snapshot of [move(id, 0)], [moveToBottom(id)] that of
    [move(id, length - 1)], [moveUp(id)] that of
    [move(id, indexOf(id) - 1)] and [moveDown(id)] that of
    [move(id, indexOf(id) + 1)], for present and absent ids alike. *)
Theorem named_moves_as_move id st :
  let l := order (state st) in
  state (exec (moveToTop id) st) = state (exec (move id 0) st)
  ∧ state (exec (moveToBottom id) st)
    = state (exec (move id (Z.of_nat (length l) - 1)) st)
  ∧ state (exec (moveUp id) st)
    = state (exec (move id (indexOf l id - 1)) st)
  ∧ state (exec (moveDown id) st)
    = state (exec (move id (indexOf l id + 1)) st).
Proof.
  cbv zeta.
  assert (Hop : ∀ op newIndex,
    (∀ i : nat, order (state st) !! i = Some id →
       indexOf (order (state st)) id = Z.of_nat i →
       target op i (length (order (state st)))
       = target (Move newIndex) i (length (order (state st)))) →
    state (exec (apply op id) st)
    = state (exec (apply (Move newIndex) id) st)).
  { intros op newIndex Htarget.
    destruct (state_after op id st) as [[Hnot ->]|(i & Hi & _ & Hidx & ->)].
    - destruct (state_after (Move newIndex) id st)
        as [[_ ->]|(i & Hi & _)]; [done|].
      destruct Hnot. by eapply list_elem_of_lookup_2.
    - destruct (state_after (Move newIndex) id st)
        as [[Hnot _]|(j & Hj & _ & Hidx' & ->)].
      + destruct Hnot. by eapply list_elem_of_lookup_2.
      + assert (j = i) as -> by lia. by rewrite (Htarget i Hi Hidx). }
  split_and!.
  - apply (Hop MoveToTop 0). intros i Hi Hidx.
    pose proof (lookup_lt_Some _ _ _ Hi). unfold target, clamp. lia.
  - apply (Hop MoveToBottom). intros i Hi Hidx.
    pose proof (lookup_lt_Some _ _ _ Hi). unfold target, clamp. lia.
  - apply (Hop MoveUp). intros i Hi Hidx.
    pose proof (lookup_lt_Some _ _ _ Hi). unfold target, clamp. lia.
  - apply (Hop MoveDown). intros i Hi Hidx.
    pose proof (lookup_lt_Some _ _ _ Hi). unfold target, clamp. lia.
Qed.

(** X2. Moving an id to the index it already has (the one [indexOf]
    gives) leaves the snapshot as it is; so does any move of an absent
    id. *)
Theorem move_to_own_index id st :
  state (exec (move id (indexOf (order (state st)) id)) st) = state st.
Proof.
  destruct (state_after (Move (indexOf (order (state st)) id)) id st)
    as [[_ Hst]|(i & Hi & _ & Hidx & Hst)]; [done|].
  unfold apply in Hst. rewrite Hst. pose proof (lookup_lt_Some _ _ _ Hi).
  replace (target (Move (indexOf (order (state st)) id)) i
             (length (order (state st)))) with i
    by (unfold target, clamp; lia).
  rewrite (relocated_same _ _ _ Hi). apply state_eta.
Qed.

Lemma exec_moveUp_split id st A y B :
  order (state st) = A ++ y :: id :: B → id ∉ A → y ≠ id →
  state (exec (moveUp id) st) = {| order := A ++ id :: y :: B |}.
Proof.
  intros Hl HA Hy.
  assert (HA' : id ∉ A ++ [y]).
  { intros [?|Heq%list_elem_of_singleton]%elem_of_app; [done|].
    by apply Hy. }
  assert (Hl' : order (state st) = (A ++ [y]) ++ id :: B)
    by (by rewrite Hl, <- app_assoc).
  destruct (state_after MoveUp id st)
    as [[Hnot _]|(i & Hi & Hfirst & Hidx & Hst)].
  - destruct Hnot. rewrite Hl'. apply elem_of_app. right. by left.
  - unfold apply in Hst. rewrite Hst. f_equal.
    assert (i = length (A ++ [y])) as ->.
    { rewrite Hl' in Hidx. rewrite (indexOf_split _ _ _ HA') in Hidx. lia. }
    simpl. rewrite Hl' at 1. rewrite relocated_split.
    replace (length (A ++ [y]) - 1)%nat with (length A)
      by (rewrite length_app; simpl; lia).
    rewrite <- !app_assoc.
    by rewrite take_app_length, drop_app_length.
Qed.

Lemma exec_moveDown_split id st A y B :
  order (state st) = A ++ id :: y :: B → id ∉ A →
  state (exec (moveDown id) st) = {| order := A ++ y :: id :: B |}.
Proof.
  intros Hl HA.
  destruct (state_after MoveDown id st)
    as [[Hnot _]|(i & Hi & Hfirst & Hidx & Hst)].
  - destruct Hnot. rewrite Hl. apply elem_of_app. right. by left.
  - unfold apply in Hst. rewrite Hst. f_equal.
    assert (i = length A) as ->.
    { rewrite Hl in Hidx. rewrite (indexOf_split _ _ _ HA) in Hidx. lia. }
    simpl. rewrite Hl at 1. rewrite relocated_split.
    replace ((length A + 1) `min` (length (order (state st)) - 1))%nat
      with (length (A ++ [y])).
    2:{ rewrite Hl, !length_app. simpl. lia. }
    rewrite (cons_middle y A B), app_assoc.
    rewrite take_app_length, drop_app_length.
    by rewrite <- app_assoc.
Qed.



Lemma NoDup_split (A B : list TId) x :
  NoDup (A ++ x :: B) → (x ∉ A) ∧ (x ∉ B).
Proof.
  rewrite NoDup_app, NoDup_cons. intros (_ & Hdisj & HB & _).
  split; [|done]. intros HA. apply (Hdisj x HA). by left.
Qed.

(** X5. When [id] is in the order and not first, [moveUp(id)] followed
    by [moveDown(id)] gives back the snapshot it started from. *)
Theorem moveUp_then_moveDown id st :
  0 < indexOf (order (state st)) id →
  state (exec (moveDown id) (exec (moveUp id) st)) = state st.
Proof.
  intros Hpos.
  destruct (indexOf_cases (order (state st)) id)
    as [[_ Habs]|(i & Hi & Hfirst & Hidx)]; [lia|].
  destruct (first_split _ _ (list_elem_of_lookup_2 _ _ _ Hi))
    as (A' & B & Hl & HA').
  rewrite Hl, (indexOf_split _ _ _ HA') in Hpos.
  destruct A' as [|y' A'' _] using rev_ind; [simpl in Hpos; lia|].
  assert ((id ∉ A'') ∧ y' ≠ id) as [HA Hy].
  { split.
    - intros Hin. apply HA', elem_of_app. by left.
    - intros ->. apply HA', elem_of_app. right. by left. }
  rewrite <- app_assoc in Hl. simpl in Hl.
  pose proof (exec_moveUp_split id st A'' y' B Hl HA Hy) as Hup.
  assert (Hl1 : order (state (exec (moveUp id) st)) = A'' ++ id :: y' :: B)
    by (by rewrite Hup).
  rewrite (exec_moveDown_split id _ A'' y' B Hl1 HA).
  rewrite <- Hl. apply state_eta.
Qed.

(** X6. In an order without duplicates, when [id] is not the last
    element, [moveDown(id)] followed by [moveUp(id)] gives back the
    snapshot it started from. *)
Theorem moveDown_then_moveUp id st :
  NoDup (order (state st)) →
  indexOf (order (state st)) id ≠ Z.of_nat (length (order (state st))) - 1 →
  state (exec (moveUp id) (exec (moveDown id) st)) = state st.
Proof.
  intros Hnodup Hlast.
  destruct (indexOf_cases (order (state st)) id)
    as [[Hnot _]|(i & Hi & Hfirst & Hidx)].
  - destruct (state_after MoveDown id st) as [[_ Hd]|(j & Hj & _)].
    + destruct (state_after MoveUp id (exec (moveDown id) st))
        as [[_ Hu]|(j & Hj & _)].
      * unfold apply in Hd, Hu. by rewrite Hu, Hd.
      * unfold apply in Hd. rewrite Hd in Hj.
        destruct Hnot. by eapply list_elem_of_lookup_2.
    + destruct Hnot. by eapply list_elem_of_lookup_2.
  - destruct (first_split _ _ (list_elem_of_lookup_2 _ _ _ Hi))
      as (A & B' & Hl & HA).
    rewrite Hl in Hnodup. destruct (NoDup_split _ _ _ Hnodup) as [_ HB'].
    rewrite Hl, (indexOf_split _ _ _ HA) in Hlast.
    destruct B' as [|y B].
    { rewrite length_app in Hlast. simpl in Hlast. lia. }
    assert (Hy : y ≠ id) by (intros ->; apply HB'; by left).
    pose proof (exec_moveDown_split id st A y B Hl HA) as Hdown.
    assert (Hl1 : order (state (exec (moveDown id) st)) = A ++ y :: id :: B)
      by (by rewrite Hdown).
    rewrite (exec_moveUp_split id _ A y B Hl1 HA Hy).
    rewrite <- Hl. apply state_eta.
Qed.

(** X7. In an order without duplicates a move can be undone: after
    [move(id, targetIndex)], moving [id] to the index it had before
    gives back the snapshot the first move started from. *)
Theorem move_undo id (targetIndex : Z) st :
  NoDup (order (state st)) →
  let before := indexOf (order (state st)) id in
  state (exec (move id before) (exec (move id targetIndex) st)) = state st.
Proof.
  intros Hnodup. cbv zeta.
  destruct (state_after (Move targetIndex) id st)
    as [[Hnot H1]|(i & Hi & Hfirst & Hidx & H1)]; unfold apply in H1.
  - destruct (state_after (Move (indexOf (order (state st)) id)) id
                (exec (move id targetIndex) st))
      as [[_ H2]|(j & Hj & _)]; unfold apply in *.
    + by rewrite H2, H1.
    + rewrite H1 in Hj. destruct Hnot. by eapply list_elem_of_lookup_2.
  - destruct (first_split _ _ (list_elem_of_lookup_2 _ _ _ Hi))
      as (A & B & Hl & HA).
    assert (i = length A) as ->.
    { rewrite Hl in Hidx. rewrite (indexOf_split _ _ _ HA) in Hidx. lia. }
    pose proof Hnodup as Hnodup'. rewrite Hl in Hnodup'.
    destruct (NoDup_split _ _ _ Hnodup') as [_ HB].
    set (b := target (Move targetIndex) (length A)
                (length (order (state st)))) in H1.
    assert (Hb : (b ≤ length (A ++ B))%nat).
    { subst b. rewrite Hl, !length_app. unfold target, clamp. simpl. lia. }
    assert (Hrest : id ∉ A ++ B).
    { intros [?|?]%elem_of_app; done. }
    assert (Hl1 : order (state (exec (move id targetIndex) st))
                  = take b (A ++ B) ++ id :: drop b (A ++ B)).
    { rewrite H1. simpl. rewrite Hl at 1. apply relocated_split. }
    assert (HP : id ∉ take b (A ++ B)).
    { intros (k & Hk & _)%elem_of_take. apply Hrest.
      by eapply list_elem_of_lookup_2. }
    destruct (state_after (Move (indexOf (order (state st)) id)) id
                (exec (move id targetIndex) st))
      as [[Hnot _]|(j & Hj & _ & Hidx2 & H2)]; unfold apply in *.
    + destruct Hnot. rewrite Hl1. apply elem_of_app. right. by left.
    + rewrite H2. rewrite Hl1 in Hidx2 |- *.
      rewrite (indexOf_split _ _ _ HP) in Hidx2.
      assert (j = length (take b (A ++ B))) as -> by lia.
      rewrite relocated_split, take_drop.
      replace (target (Move (indexOf (order (state st)) id))
                 (length (take b (A ++ B)))
                 (length (take b (A ++ B) ++ id :: drop b (A ++ B))))
        with (length A).
      2:{ rewrite Hidx. unfold target, clamp.
          rewrite length_app, length_take. simpl. rewrite length_drop.
          rewrite length_app in *. lia. }
      rewrite take_app_length, drop_app_length, <- Hl. apply state_eta.
Qed.

End Moves.

Local Open Scope string_scope.
Local Open Scope list_scope.
Local Open Scope Z_scope.

Lemma moveUp_then_moveDown_witness :
  let st : store (ReorderableListSliceState string) :=
    create (createReorderableListStoreSlice ["x"; "y"; "z"; "y"]) in
  0 < indexOf (order (state st)) "y"
  ∧ order (state (exec (moveUp "y") st)) = ["y"; "x"; "z"; "y"]
  ∧ state (exec (moveDown "y") (exec (moveUp "y") st)) = state st.
Proof.
  split; [reflexivity|]. split; [reflexivity|].
  apply (moveUp_then_moveDown "y"
           (create (createReorderableListStoreSlice ["x"; "y"; "z"; "y"]))).
  reflexivity.
Defined.

Lemma moveDown_then_moveUp_witness :
  let st : store (ReorderableListSliceState string) :=
    create (createReorderableListStoreSlice ["x"; "y"; "z"]) in
  NoDup (order (state st))
  ∧ indexOf (order (state st)) "x" ≠ Z.of_nat (length (order (state st))) - 1
  ∧ order (state (exec (moveDown "x") st)) = ["y"; "x"; "z"]
  ∧ state (exec (moveUp "x") (exec (moveDown "x") st)) = state st.
Proof.
  split; [compute_done|]. split; [compute_done|]. split; [reflexivity|].
  apply (moveDown_then_moveUp "x"
           (create (createReorderableListStoreSlice ["x"; "y"; "z"])));
    compute_done.
Defined.

Lemma move_undo_witness :
  let st : store (ReorderableListSliceState string) :=
    create (createReorderableListStoreSlice ["x"; "y"; "z"]) in
  NoDup (order (state st))
  ∧ order (state (exec (move "x" 5) st)) = ["y"; "z"; "x"]
  ∧ state (exec (move "x" (indexOf (order (state st)) "x"))
             (exec (move "x" 5) st)) = state st.
Proof.
  split; [compute_done|]. split; [reflexivity|].
  apply (move_undo "x" 5
           (create (createReorderableListStoreSlice ["x"; "y"; "z"]))).
  compute_done.
Defined.


(** With a duplicate the second [moveToBottom] is not idle, and
    [moveDown] then [moveUp] is not the identity. *)
Example moveToBottom_with_duplicate :
  let st : store (ReorderableListSliceState string) :=
    create (createReorderableListStoreSlice ["a"; "a"; "b"]) in
  let st1 := exec (moveToBottom "a") st in
  order (state st1) = ["a"; "b"; "a"]
  ∧ order (state (exec (moveToBottom "a") st1)) = ["b"; "a"; "a"].
Proof. split; reflexivity. Qed.

Example moveDown_moveUp_with_duplicate :
  let st : store (ReorderableListSliceState string) :=
    create (createReorderableListStoreSlice ["z"; "a"; "a"; "b"]) in
  order (state (exec (moveUp "a") (exec (moveDown "a") st)))
  = ["a"; "z"; "a"; "b"].
Proof. reflexivity. Qed.
End ReorderableListMoves.


(** ** Mutable list slice: how the calls compose *)

Module MutableListCalls.
Import MutableListSlice MutableListProperties.
Local Open Scope list_scope.

Section Calls.
Context {Number Symbol : Type}.
Context `{EqDecision Number, Countable Symbol, NumberToString Number}.
Context {TData : Type} `{PrototypeValue TData}.
Implicit Types (s : MutableListSliceState Number Symbol TData).
Implicit Types (st : store (MutableListSliceState Number Symbol TData)).
Implicit Types (id : Id Number Symbol) (element : TData).
Implicit Types (l : list (Id Number Symbol)).
Implicit Types (record : gmap (string + Symbol) TData).

(** The entry the collection holds under a property key, and for an
    identifier; none when the collection is [null]. *)
Definition entry_at (key : string + Symbol) s : option TData :=
  match data s with
  | Some record => record !! key
  | None => None
  end.

Definition entry id s : option TData := entry_at (to_property_key id) s.

Definition call_id (c : call Number Symbol TData) : Id Number Symbol :=
  match c with
  | CallAdd id _ => id
  | CallRemove id => id
  end.



Lemma filter_twice (P : Id Number Symbol → Prop) `{!∀ x, Decision (P x)} l :
  filter P (filter P l) = filter P l.
Proof.
  rewrite list_filter_filter. apply list_filter_iff. intros x. tauto.
Qed.

Lemma tracked_twice l id : tracked (tracked l id) id = tracked l id.
Proof.
  unfold tracked at 1.
  assert (includes (tracked l id) id = true) as ->; [|done].
  apply includes_spec, elem_of_tracked. by right.
Qed.

Lemma tracked_absent l id : id ∉ l → tracked l id = l ++ [id].
Proof.
  intros Hnot. unfold tracked.
  assert (includes l id = false) as ->; [|done].
  apply not_true_is_false. by rewrite includes_spec.
Qed.

Lemma draft_assign_plain record (key : string + Symbol) element :
  key ≠ inl "__proto__"%string →
  draft_assign record key element = Normal (<[key := element]> record).
Proof. intros Hkey. unfold draft_assign. by rewrite decide_False. Qed.

Lemma draft_assign_twice record record' (key : string + Symbol) element :
  draft_assign record key element = Normal record' →
  draft_assign record' key element = Normal record'.
Proof.
  unfold draft_assign. destruct (decide (key = inl "__proto__"%string)).
  - destruct (is_prototype_value element); [done|]. by intros [= ->].
  - intros [= <-]. by rewrite insert_insert_eq.
Qed.


Lemma state_exec_null (c : call Number Symbol TData) st :
  data (state st) = None → state (exec (perform c) st) = state st.
Proof.
  intros Hd. destruct c as [id element|id]; unfold exec, perform.
  - unfold add. by rewrite (set_throw _ st _ (add_recipe_null id element _ Hd)).
  - unfold remove. by rewrite (set_throw _ st _ (remove_recipe_null id _ Hd)).
Qed.

(** X9. On a collection that is not [null], for an id that is not NaN
    and whose property key is not [__proto__], [remove(id)] followed
    by [add(id, item)] leaves [id] mapped to [item], listed last in
    [added] and absent from [deleted]; the other entries of the two
    arrays are as before. *)
Theorem remove_then_add id element st record :
  data (state st) = Some record →
  id ≠ IdNaN →
  to_property_key id ≠ inl "__proto__"%string →
  let st' := run [CallRemove id; CallAdd id element] st in
  data (state st') = Some (<[to_property_key id := element]> record)
  ∧ entry id (state st') = Some element
  ∧ added (state st') = filter (λ x, x ≠ id) (added (state st)) ++ [id]
  ∧ deleted (state st') = filter (λ x, x ≠ id) (deleted (state st))
  ∧ (id ∉ deleted (state st')).
Proof.
  intros Hd Hid Hkey.
  change (run [CallRemove id; CallAdd id element] st)
    with (exec (add id element) (exec (remove id) st)).
  destruct (exec_remove_record id st record Hd) as [_ Hr].
  assert (Hd' : data (state (exec (remove id) st))
                = Some (delete (to_property_key id) record))
    by (by rewrite Hr).
  cbv zeta. unfold entry, entry_at.
  rewrite (state_exec_add id element _ _ Hd').
  rewrite (draft_assign_plain _ _ _ Hkey), Hr. simpl.
  rewrite insert_delete_eq, !(filter_strict _ _ Hid).
  rewrite (tracked_absent _ _ (filter_drops_id _ _)), filter_tracked.
  split_and!; [done|apply lookup_insert_eq|done|done|apply filter_drops_id].
Qed.

(** X10. [add] and [remove] are idempotent on the snapshot: a second
    identical call, right after the first, changes nothing. *)
Theorem add_remove_idempotent id element st :
  state (exec (add id element) (exec (add id element) st))
  = state (exec (add id element) st)
  ∧ state (exec (remove id) (exec (remove id) st))
    = state (exec (remove id) st).
Proof.
  destruct (data (state st)) as [record|] eqn:Hd.
  - split.
    + pose proof (state_exec_add id element st record Hd) as Ha.
      destruct (draft_assign record (to_property_key id) element)
        as [record'|e] eqn:Hassign.
      * assert (Hd' : data (state (exec (add id element) st)) = Some record')
          by (by rewrite Ha).
        rewrite (state_exec_add id element _ _ Hd').
        rewrite (draft_assign_twice _ _ _ _ Hassign), Ha. simpl.
        by rewrite tracked_twice, filter_twice.
      * assert (Hd' : data (state (exec (add id element) st)) = Some record)
          by (by rewrite Ha).
        rewrite (state_exec_add id element _ _ Hd'). by rewrite Hassign.
    + destruct (exec_remove_record id st record Hd) as [_ Hr].
      assert (Hd' : data (state (exec (remove id) st))
                    = Some (delete (to_property_key id) record))
        by (by rewrite Hr).
      destruct (exec_remove_record id _ _ Hd') as [_ Hr'].
      rewrite Hr'. rewrite Hr; simpl.
      rewrite tracked_twice, filter_twice.
      by rewrite (delete_id (delete _ record)) by apply lookup_delete_eq.
  - pose proof (state_exec_null (CallAdd id element) st Hd) as Ha.
    pose proof (state_exec_null (CallRemove id) st Hd) as Hr.
    simpl perform in Ha, Hr. split.
    + apply (state_exec_null (CallAdd id element)). by rewrite Ha.
    + apply (state_exec_null (CallRemove id)). by rewrite Hr.
Qed.


(** Identifiers that behave as plain keys: none is NaN, none has the
    property key [__proto__], and two of them with one property key are
    the same identifier. *)
Definition plain_ids (ids : list (Id Number Symbol)) : Prop :=
  Forall (λ a, a ≠ IdNaN
               ∧ to_property_key a ≠ inl "__proto__"%string
               ∧ Forall (λ b, to_property_key a = to_property_key b → a = b)
                   ids) ids.

Lemma plain_ids_elem ids a :
  plain_ids ids → a ∈ ids →
  a ≠ IdNaN ∧ to_property_key a ≠ inl "__proto__"%string
  ∧ ∀ b, b ∈ ids → to_property_key a = to_property_key b → a = b.
Proof.
  intros Hplain Ha. unfold plain_ids in Hplain.
  rewrite Forall_forall in Hplain.
  destruct (Hplain a Ha) as (Hnan & Hkey & Hinj). split_and!; [done..|].
  intros b Hb. rewrite Forall_forall in Hinj. by apply Hinj.
Qed.

(** The tracking arrays hold ids of [ids] only and agree with the
    collection. *)
Definition tracking_matches_collection (ids : list (Id Number Symbol)) s
  : Prop :=
  ∀ id, (id ∈ added s → id ∈ ids ∧ is_Some (entry id s))
        ∧ (id ∈ deleted s → id ∈ ids ∧ entry id s = None).

Lemma add_recipe_matches ids id element s s' :
  plain_ids ids → id ∈ ids →
  tracking_matches_collection ids s → add_recipe id element s = Normal s' →
  tracking_matches_collection ids s'.
Proof.
  intros Hplain Hin Hs Hr.
  destruct (plain_ids_elem ids id Hplain Hin) as (Hnan & Hkey & Hinj).
  destruct (data s) as [record|] eqn:Hd; [|by rewrite add_recipe_null in Hr].
  rewrite (add_recipe_record _ _ _ record _ Hd
             (draft_assign_plain _ _ _ Hkey)) in Hr.
  injection Hr as <-. intros y. destruct (Hs y) as [Hadd Hdel].
  unfold entry, entry_at in *. rewrite Hd in Hadd, Hdel. simpl.
  rewrite elem_of_tracked, (filter_strict _ _ Hnan), list_elem_of_filter.
  split.
  - intros [Hy| ->].
    + destruct (Hadd Hy) as [Hyin Hsome]. split; [done|].
      destruct (decide (to_property_key y = to_property_key id)) as [Heq|Hne].
      * rewrite Heq, lookup_insert_eq. by eexists.
      * by rewrite lookup_insert_ne.
    + split; [done|]. rewrite lookup_insert_eq. by eexists.
  - intros [Hne Hy]. destruct (Hdel Hy) as [Hyin Hnone]. split; [done|].
    rewrite lookup_insert_ne; [done|].
    intros Heq. apply Hne. symmetry. by apply Hinj.
Qed.

Lemma remove_recipe_matches ids id s s' :
  plain_ids ids → id ∈ ids →
  tracking_matches_collection ids s → remove_recipe id s = Normal s' →
  tracking_matches_collection ids s'.
Proof.
  intros Hplain Hin Hs Hr.
  destruct (plain_ids_elem ids id Hplain Hin) as (Hnan & Hkey & Hinj).
  destruct (data s) as [record|] eqn:Hd;
    [|by rewrite remove_recipe_null in Hr].
  rewrite (remove_recipe_record _ _ _ Hd) in Hr.
  injection Hr as <-. intros y. destruct (Hs y) as [Hadd Hdel].
  unfold entry, entry_at in *. rewrite Hd in Hadd, Hdel. simpl.
  rewrite elem_of_tracked, (filter_strict _ _ Hnan), list_elem_of_filter.
  split.
  - intros [Hne Hy]. destruct (Hadd Hy) as [Hyin Hsome]. split; [done|].
    rewrite lookup_delete_ne; [done|].
    intros Heq. apply Hne. symmetry. by apply Hinj.
  - intros [Hy| ->].
    + destruct (Hdel Hy) as [Hyin Hnone]. split; [done|].
      destruct (decide (to_property_key id = to_property_key y)) as [Heq|Hne].
      * rewrite <- Heq. apply lookup_delete_eq.
      * by rewrite lookup_delete_ne.
    + split; [done|]. apply lookup_delete_eq.
Qed.

Lemma run_matches ids (calls : list (call Number Symbol TData)) st :
  plain_ids ids → Forall (λ c, call_id c ∈ ids) calls →
  tracking_matches_collection ids (state st) →
  tracking_matches_collection ids (state (run calls st)).
Proof.
  intros Hplain. revert st.
  induction calls as [|c calls IH]; intros st Hcalls Hst; [done|].
  apply Forall_cons in Hcalls as [Hc Hcalls].
  change (tracking_matches_collection ids
            (state (run calls (exec (perform c) st)))).
  apply IH; [done|]. destruct c as [id element|id]; simpl in Hc.
  - apply (exec_set_preserves (tracking_matches_collection ids)
             (add_recipe id element)); [|done].
    intros s s'. by apply add_recipe_matches.
  - apply (exec_set_preserves (tracking_matches_collection ids)
             (remove_recipe id)); [|done].
    intros s s'. by apply remove_recipe_matches.
Qed.

(** X12. After a sequence of [add] and [remove] calls on a store
    created with empty tracking arrays, when the ids of the calls are
    plain (no NaN, no [__proto__], no two ids with one property key),
    every id in [added] has an entry in the collection and no id in
    [deleted] has one. *)
Theorem tracking_agrees_with_collection
    (initialList : nullable (gmap (string + Symbol) TData))
    (calls : list (call Number Symbol TData)) :
  plain_ids (call_id <$> calls) →
  let st := run calls (create (createStore initialList)) in
  ∀ id, (id ∈ added (state st) → is_Some (entry id (state st)))
        ∧ (id ∈ deleted (state st) → entry id (state st) = None).
Proof.
  intros Hplain. cbv zeta.
  assert (Hm : tracking_matches_collection (call_id <$> calls)
                 (state (run calls (create (createStore initialList))))).
  { apply run_matches; [done| |].
    - apply Forall_forall. intros c Hc. by apply list_elem_of_fmap_2.
    - intros id. simpl. split; intros Hin; by apply elem_of_nil in Hin. }
  intros id. destruct (Hm id) as [Hadd Hdel]. split.
  - intros Hin. by destruct (Hadd Hin).
  - intros Hin. by destruct (Hdel Hin).
Qed.

(** X13. [remove(id)] of an id other than NaN under whose property key
    the collection holds nothing leaves the collection as it is, yet
    records the id: it is then in [deleted] and not in [added]. *)
Theorem remove_missing_id id st record :
  data (state st) = Some record →
  record !! to_property_key id = None →
  id ≠ IdNaN →
  let st' := exec (remove id) st in
  outcome (remove id) st = Normal tt
  ∧ data (state st') = Some record
  ∧ id ∈ deleted (state st')
  ∧ (id ∉ added (state st')).
Proof.
  intros Hd Hmiss Hid. cbv zeta.
  destruct (exec_remove_record id st record Hd) as [Hout ->]. simpl.
  rewrite (filter_strict _ _ Hid).
  split_and!; [done| | |apply filter_drops_id].
  - by rewrite delete_id.
  - apply elem_of_tracked. by right.
Qed.
End Calls.

Local Open Scope string_scope.
Local Open Scope list_scope.

Lemma remove_then_add_witness :
  let st : store ExampleState :=
    run [CallAdd (str "a") 1%nat; CallAdd (str "b") 2%nat]
      (create (createStore (Some ∅))) in
  let st' := run [CallRemove (str "a"); CallAdd (str "a") 3%nat] st in
  data (state st) = Some {[ inl "a" := 1%nat; inl "b" := 2%nat ]}
  ∧ (added (state st'), deleted (state st')) = ([str "b"; str "a"], [])
  ∧ entry (str "a") (state st') = Some 3%nat.
Proof.
  split; [reflexivity|]. split; [reflexivity|].
  apply (remove_then_add (str "a") 3%nat
           (run [CallAdd (str "a") 1%nat; CallAdd (str "b") 2%nat]
              (create (createStore (Some ∅))))
           {[ inl "a" := 1%nat; inl "b" := 2%nat ]});
    [reflexivity|discriminate|discriminate].
Defined.

Lemma tracking_agrees_with_collection_witness :
  let calls : list (call small_number positive nat) :=
    [CallAdd (str "a") 1%nat; CallRemove (str "b");
     CallAdd (IdNumber Two) 5%nat; CallRemove (str "a")] in
  let st := run calls (create (createStore (Some {[ inl "b" := 2%nat ]}))) in
  plain_ids (call_id <$> calls)
  ∧ (added (state st), deleted (state st))
    = ([IdNumber Two], [str "b"; str "a"])
  ∧ data (state st) = Some {[ inl "2" := 5%nat ]}
  ∧ is_Some (entry (IdNumber Two) (state st))
  ∧ entry (str "a") (state st) = None.
Proof.
  split; [compute_done|]. split; [reflexivity|]. split; [reflexivity|].
  pose proof (tracking_agrees_with_collection
                (Some {[ inl "b" := 2%nat ]})
                [CallAdd (str "a") 1%nat; CallRemove (str "b");
                 CallAdd (IdNumber Two) 5%nat; CallRemove (str "a")])
    as Hagree.
  split.
  - apply (Hagree ltac:(compute_done) (IdNumber Two)). compute_done.
  - apply (Hagree ltac:(compute_done) (str "a")). compute_done.
Defined.

Lemma remove_missing_id_witness :
  let st : store ExampleState :=
    create (createStore (Some {[ inl "b" := 2%nat ]})) in
  let st' := exec (remove (str "a")) st in
  data (state st) = Some {[ inl "b" := 2%nat ]}
  ∧ ({[ inl "b" := 2%nat ]} : gmap (string + positive) nat) !! inl "a" = None
  ∧ data (state st') = Some {[ inl "b" := 2%nat ]}
  ∧ deleted (state st') = [str "a"].
Proof.
  split; [reflexivity|]. split; [reflexivity|]. split; [|reflexivity].
  apply (remove_missing_id (str "a")
           (create (createStore (Some {[ inl "b" := 2%nat ]})))
           {[ inl "b" := 2%nat ]}); [reflexivity|reflexivity|discriminate].
Defined.

(** Outside the plain ids the arrays and the collection part ways. *)
Example tracked_without_entry :
  let st : store ExampleState :=
    run [CallAdd (IdNumber One) 7%nat; CallRemove (str "1")]
      (create (createStore (Some ∅))) in
  IdNumber One ∈ added (state st)
  ∧ entry (IdNumber One) (state st) = None.
Proof. split; [compute_done|reflexivity]. Qed.
End MutableListCalls.


(** ** Data slices: edits, resets and refreshes in sequence *)

Module DataSliceCalls.
Local Open Scope list_scope.

Section RestorableCalls.
Import RestorableDataSlice.
Context {TData : Type}.
Implicit Types (st : store (RestorableDataSliceState TData)).
Implicit Types (v : nullable TData).

(** A run of [setData] calls, in order. *)
Definition edit (edits : list (nullable TData)) st
  : store (RestorableDataSliceState TData) :=
  foldl (fun st v => exec (setData v) st) st edits.

Lemma edit_snoc edits v st :
  edit (edits ++ [v]) st = exec (setData v) (edit edits st).
Proof. unfold edit. by rewrite foldl_app. Qed.

(** X14. [setData] never touches the baseline: after any run of
    [setData] calls [initialData] is what it was, [data] is the last
    value set, and [reset()] puts [data] back to that baseline. *)
Theorem edits_then_reset (edits : list (nullable TData)) st :
  let st1 := edit edits st in
  initialData (state st1) = initialData (state st)
  ∧ data (state st1) = default (data (state st)) (last edits)
  ∧ data (state (exec (reset None) st1)) = initialData (state st)
  ∧ initialData (state (exec (reset None) st1)) = initialData (state st).
Proof.
  cbv zeta.
  assert (Hedit : initialData (state (edit edits st)) = initialData (state st)
                  ∧ data (state (edit edits st))
                    = default (data (state st)) (last edits)).
  { induction edits as [|v edits IH] using rev_ind; [done|].
    rewrite edit_snoc, last_snoc. destruct IH as [IH _]. by split. }
  destruct Hedit as [Hinit Hdata]. split_and!; [done|done| |].
  - by rewrite <- Hinit.
  - by rewrite <- Hinit.
Qed.
End RestorableCalls.

Section RefreshableCalls.
Import RefreshableDataSlice.
Context {TData : Type}.
Implicit Types (st : store (RefreshableDataSliceState TData)).
Implicit Types (v : nullable TData).

(** The local calls of a refreshable slice: everything but [refresh]. *)
Inductive local_call : Type :=
| Edit (v : nullable TData)
| Reset (arg : optional (nullable TData)).

Definition perform_local (c : local_call)
  : action (RefreshableDataSliceState TData) unit :=
  match c with
  | Edit v => setData v
  | Reset arg => reset arg
  end.

Definition run_local (calls : list local_call) st
  : store (RefreshableDataSliceState TData) :=
  foldl (fun st c => exec (perform_local c) st) st calls.

Lemma run_local_snoc calls c st :
  run_local (calls ++ [c]) st = exec (perform_local c) (run_local calls st).
Proof. unfold run_local. by rewrite foldl_app. Qed.

Lemma state_refresh v st :
  state (exec (refresh v) st)
  = {| restorable := {| RestorableDataSlice.data := v;
                        RestorableDataSlice.initialData := v |};
       freshData := v |}.
Proof.
  unfold exec, refresh, reset, set, get, mbind, action_bind, Store.bind,
    spread, RestorableDataSlice.reset_recipe; simpl.
  by rewrite DataSliceProperties.nullish_null.
Qed.

(** X16. Only [refresh] writes [freshData]: any run of [setData] and
    [reset] calls, with or without argument, leaves it as it was. *)
Theorem local_calls_keep_freshData (calls : list local_call) st :
  freshData (state (run_local calls st)) = freshData (state st).
Proof.
  induction calls as [|c calls IH] using rev_ind; [done|].
  rewrite run_local_snoc, <- IH. by destruct c.
Qed.

(** X17. After [refresh(v)] and any run of [setData] edits, [freshData]
    and the baseline are still [v], [data] is the last value set (so it
    differs from [freshData] exactly when that value differs from [v]),
    and [reset()] brings [data] back to [v]. *)
Theorem refresh_edit_reset v (edits : list (nullable TData)) st :
  let st1 := run_local (Edit <$> edits) (exec (refresh v) st) in
  let st2 := exec (reset None) st1 in
  freshData (state st1) = v
  ∧ RefreshableDataSlice.initialData (state st1) = v
  ∧ RefreshableDataSlice.data (state st1) = default v (last edits)
  ∧ RefreshableDataSlice.data (state st2) = v
  ∧ RefreshableDataSlice.initialData (state st2) = v
  ∧ freshData (state st2) = v.
Proof.
  cbv zeta.
  assert (Hedit :
    freshData (state (run_local (Edit <$> edits) (exec (refresh v) st))) = v
    ∧ RefreshableDataSlice.initialData
        (state (run_local (Edit <$> edits) (exec (refresh v) st))) = v
    ∧ RefreshableDataSlice.data
        (state (run_local (Edit <$> edits) (exec (refresh v) st)))
      = default v (last edits)).
  { induction edits as [|w edits IH] using rev_ind.
    - change (run_local (Edit <$> []) (exec (refresh v) st))
        with (exec (refresh v) st).
      by rewrite state_refresh.
    - rewrite fmap_app.
      change (Edit <$> [w]) with [Edit w].
      rewrite run_local_snoc, last_snoc.
      destruct IH as (IH1 & IH2 & _). by split_and!. }
  destruct Hedit as (Hf & Hi & Hd). by split_and!.
Qed.
End RefreshableCalls.
End DataSliceCalls.


(** ** List slice and mutable list slice together *)

Module ListSliceCalls.
Import MutableListSlice MutableListProperties.
Local Open Scope list_scope.

Section ListCalls.
Context {Number Symbol : Type}.
Context `{EqDecision Number, Countable Symbol, NumberToString Number}.
Context {TData : Type} `{PrototypeValue TData}.
Implicit Types (st : store (MutableListSliceState Number Symbol TData)).

(** The calls of the composed store: those of the mutable list slice
    and the list slice's [setData]. *)
Inductive list_call : Type :=
| Tracked (c : call Number Symbol TData)
| CallSetData (d : nullable (gmap (string + Symbol) TData)).

Definition perform_list (c : list_call)
  : action (MutableListSliceState Number Symbol TData) unit :=
  match c with
  | Tracked c => perform c
  | CallSetData d => setData d
  end.

Definition run_list (calls : list list_call) st
  : store (MutableListSliceState Number Symbol TData) :=
  foldl (fun st c => exec (perform_list c) st) st calls.

(** The id a call is about, if it is about one. *)
Definition list_call_id (c : list_call) : option (Id Number Symbol) :=
  match c with
  | Tracked (CallAdd id _) => Some id
  | Tracked (CallRemove id) => Some id
  | CallSetData _ => None
  end.

Lemma run_list_snoc calls c st :
  run_list (calls ++ [c]) st = exec (perform_list c) (run_list calls st).
Proof. unfold run_list. by rewrite foldl_app. Qed.

(** X18. [setData] replaces the collection and leaves [added] and
    [deleted] alone.  Under any sequence of [add], [remove] and
    [setData] calls, [setData(null)] included, in which no call is
    about the id NaN, no id is in both arrays and neither array holds
    an id twice. *)
Theorem tracking_invariants_with_setData
    (initialList : nullable (gmap (string + Symbol) TData))
    (calls : list list_call) :
  Forall (λ c, list_call_id c ≠ Some IdNaN) calls →
  let st := run_list calls (create (createStore initialList)) in
  (∀ id, ¬ (id ∈ added (state st) ∧ id ∈ deleted (state st)))
  ∧ NoDup (added (state st))
  ∧ NoDup (deleted (state st))
  ∧ (∀ d st0,
       data (state (exec (setData d) st0)) = d
       ∧ added (state (exec (setData d) st0)) = added (state st0)
       ∧ deleted (state (exec (setData d) st0)) = deleted (state st0)).
Proof.
  intros Hcalls. cbv zeta.
  assert (Hinv :
    disjoint_tracking (state (run_list calls (create (createStore initialList))))
    ∧ duplicate_free (state (run_list calls (create (createStore initialList))))).
  { induction calls as [|c calls IH] using rev_ind.
    - split; [|split; apply NoDup_nil_2].
      intros id [Hin _]. by apply elem_of_nil in Hin.
    - apply Forall_app in Hcalls as [Hcalls Hc].
      rewrite Forall_singleton in Hc.
      destruct (IH Hcalls) as [IH1 IH2].
      rewrite run_list_snoc. destruct c as [[id element|id]|d].
      + assert (Hid : id ≠ IdNaN) by (intros ->; by apply Hc).
        split.
        * apply (exec_set_preserves disjoint_tracking (add_recipe id element));
            [|done].
          intros s s' Hs Hr.
          exact (add_recipe_disjoint id element s s' Hid Hs Hr).
        * apply (exec_set_preserves duplicate_free (add_recipe id element));
            [|done].
          intros s s' Hs Hr.
          exact (add_recipe_duplicate_free id element s s' Hs Hr).
      + assert (Hid : id ≠ IdNaN) by (intros ->; by apply Hc).
        split.
        * apply (exec_set_preserves disjoint_tracking (remove_recipe id));
            [|done].
          intros s s' Hs Hr. exact (remove_recipe_disjoint id s s' Hid Hs Hr).
        * apply (exec_set_preserves duplicate_free (remove_recipe id));
            [|done].
          intros s s' Hs Hr.
          exact (remove_recipe_duplicate_free id s s' Hs Hr).
      + split; [exact IH1|exact IH2]. }
  destruct Hinv as [Hdisj [Hadded Hdeleted]]. by split_and!.
Qed.
End ListCalls.
Arguments list_call Number Symbol {_ _} TData.

Local Open Scope string_scope.
Local Open Scope list_scope.

Lemma tracking_invariants_with_setData_witness :
  let calls : list (list_call small_number positive nat) :=
    [Tracked (CallAdd (str "a") 1%nat); Tracked (CallRemove (str "b"));
     CallSetData None; Tracked (CallAdd (str "c") 3%nat);
     CallSetData (Some ∅); Tracked (CallRemove (str "a"));
     Tracked (CallAdd (str "b") 2%nat)] in
  let st := run_list calls (create (createStore (Some ∅))) in
  Forall (λ c, list_call_id c ≠ Some IdNaN) calls
  ∧ (added (state st), deleted (state st)) = ([str "b"], [str "a"])
  ∧ NoDup (added (state st)).
Proof.
  split; [compute_done|]. split; [reflexivity|].
  apply (tracking_invariants_with_setData (Some ∅)
           [Tracked (CallAdd (str "a") 1%nat); Tracked (CallRemove (str "b"));
            CallSetData None; Tracked (CallAdd (str "c") 3%nat);
            CallSetData (Some ∅); Tracked (CallRemove (str "a"));
            Tracked (CallAdd (str "b") 2%nat)]).
  compute_done.
Defined.

(** After [setData] the arrays may name ids the new collection does not
    hold: the agreement between arrays and collection is kept by [add]
    and [remove] only. *)
Example setData_keeps_stale_tracking :
  let st : store ExampleState :=
    run_list [Tracked (CallAdd (str "a") 1%nat); CallSetData (Some ∅)]
      (create (createStore (Some ∅))) in
  added (state st) = [str "a"] ∧ data (state st) = Some ∅.
Proof. split; reflexivity. Qed.
End ListSliceCalls.

(** ** The example slices: the user in the combined store *)

Module ExampleStoreProperties.
Import UserAndBookmarkStore.
Local Open Scope list_scope.

Implicit Types (st : store UserAndBookmarkState).

(** X22. [updateUser] in the combined store: with no user it changes
    nothing, whatever the updater; with a user [u] it stores what the
    updater leaves and keeps the bookmark records; when the updater
    throws, the error reaches the caller and the store is as before. *)
Theorem updateUser_guard (updater : UserSlice.user_updater) st :
  let st' := exec (updateUser updater) st in
  (UserSlice.user (userSlice (state st)) = None →
     outcome (updateUser updater) st = Normal tt ∧ state st' = state st)
  ∧ (∀ u u', UserSlice.user (userSlice (state st)) = Some u →
       updater u = Normal u' →
       outcome (updateUser updater) st = Normal tt
       ∧ UserSlice.user (userSlice (state st')) = Some u'
       ∧ bookmarkSlice (state st') = bookmarkSlice (state st))
  ∧ (∀ u e, UserSlice.user (userSlice (state st)) = Some u →
       updater u = Throw e → updateUser updater st = (Throw e, st)).
Proof.
  cbv zeta. destruct st as [[bs [held]] log].
  unfold outcome, exec, updateUser, set, on_user,
    UserSlice.updateUser_recipe. simpl. split_and!.
  - by intros ->.
  - intros u u' -> Hu. by rewrite Hu.
  - intros u e -> Hu. by rewrite Hu.
Qed.
End ExampleStoreProperties.

(** ** The name of the persistent user store *)

Module PersistNameProperties.
Import UserSlice.
Local Open Scope string_scope.

Lemma persist_name_with_id (u : User) :
  id u ≠ "" → persist_name (Some u) = "user-store-" ++ id u.
Proof.
  intros Hid. unfold persist_name, truthy.
  by rewrite bool_decide_eq_false_2.
Qed.

(** X23. The name under which the user store is persisted: users with
    different non-empty ids get different names, none of which is the
    name "user-store" used when there is no user; a user whose id is
    the empty string gets that name "user-store" too. *)
Theorem persist_name_separates_users (u1 u2 : User) :
  persist_name None = "user-store"
  ∧ (id u1 = "" → persist_name (Some u1) = "user-store")
  ∧ (id u1 ≠ "" → persist_name (Some u1) ≠ persist_name None)
  ∧ (id u1 ≠ "" → id u2 ≠ "" →
     (persist_name (Some u1) = persist_name (Some u2) ↔ id u1 = id u2)).
Proof.
  split_and!.
  - done.
  - intros Hid. unfold persist_name, truthy. by rewrite Hid.
  - intros Hid. rewrite (persist_name_with_id u1 Hid). simpl.
    destruct (id u1); [done|discriminate].
  - intros Hid1 Hid2.
    rewrite (persist_name_with_id u1 Hid1), (persist_name_with_id u2 Hid2).
    simpl. split; [|by intros ->].
    intros Heq. by simplify_eq.
Qed.
End PersistNameProperties.
